(** * webpack-assets-manifest: the manifest store, the customize pipeline,
      the merge engine and the persistence gate

    A shallow embedding of [src/WebpackAssetsManifest.js].  JavaScript values
    are an inductive type, objects are finite maps from property names to
    values, and the methods of the plugin class are functions in a small
    state-and-exception monad over the plugin instance and the process
    environment (console, lock files, file system, compilation output). *)

From stdpp Require Import gmap strings list fin_maps pretty.
From Stdlib Require Import ZArith Ascii.

Set Warnings "-register-all".
Set Default Proof Using "Type".

Open Scope string_scope.

(** ** JavaScript values *)

(** The values that flow through the manifest: what [JSON.parse] produces,
    plus [undefined].  Numbers are integers here (the manifest never does
    arithmetic on them); objects carry own enumerable string-keyed properties
    only, prototypes are not modelled. *)
Inductive value : Type :=
  | VUndefined
  | VNull
  | VBool (b : bool)
  | VNum (n : Z)
  | VStr (s : string)
  | VArr (xs : list value)
  | VObj (fields : gmap string value).

(** [object[key]] on a plain object: a missing property reads [undefined]. *)
Definition prop (o : gmap string value) (key : string) : value :=
  default VUndefined (o !! key).

(** ToBoolean, as used by [||], [!] and [if]. *)
Definition truthy (v : value) : bool :=
  match v with
  | VUndefined | VNull => false
  | VBool b => b
  | VNum n => negb (n =? 0)%Z
  | VStr s => negb (String.eqb s "")
  | VArr _ | VObj _ => true
  end.

(** [a || b] *)
Definition js_or (a b : value) : value := if truthy a then a else b.



Definition all_true (m : gmap string bool) : bool :=
  map_fold (λ _ (ok : bool) acc, ok && acc) true m.

(** Strict equality [===].  Primitives compare by value.  Object identity is
    not modelled: two objects or arrays are identified when they are
    structurally equal, which is exact whenever the right operand is handed
    through unchanged (no customize stage builds a fresh copy). *)
Fixpoint value_eqb (a b : value) {struct a} : bool :=
  match a, b with
  | VUndefined, VUndefined | VNull, VNull => true
  | VBool x, VBool y => Bool.eqb x y
  | VNum x, VNum y => (x =? y)%Z
  | VStr x, VStr y => String.eqb x y
  | VArr xs, VArr ys =>
      (fix go (xs ys : list value) : bool :=
         match xs, ys with
         | [], [] => true
         | x :: xs', y :: ys' => value_eqb x y && go xs' ys'
         | _, _ => false
         end) xs ys
  | VObj f, VObj g =>
      all_true (merge (λ (c : option (value → bool)) (y : option value),
                         match c, y with
                         | Some c, Some y => Some (c y)
                         | None, None => None
                         | _, _ => Some false
                         end)
                      (value_eqb <$> f) g)
  | _, _ => false
  end.

(** ** helpers.js *)

(** Modelled from the spec: [isObject] of helpers.js, which is not part of
    the sources at hand.  The spec calls its positive instances "plain
    structured objects (not arrays, not scalars)". *)
Definition isObject (v : value) : bool :=
  match v with
  | VObj _ => true
  | _ => false
  end.

(** ** The deepmerge package *)

(** [isMergeableObject]: non-null objects and arrays (the values at hand
    contain no RegExp, Date or React element). *)
Definition isMergeableObject (v : value) : bool :=
  match v with
  | VArr _ | VObj _ => true
  | _ => false
  end.

(** One property of the destination of [mergeObject(target, source)], as a
    function of what the target has under the same name:
    [destination[key] = propertyIsOnObject(target, key) &&
    isMergeableObject(source[key]) ? deepmerge(target[key], source[key]) :
    clone(source[key])].  Cloning is the identity on structural values. *)
Definition mergeProperty (rec : value → value → value)
    (sourceValue : value) (targetValue : option value) : value :=
  match targetValue with
  | Some t => if isMergeableObject sourceValue then rec t sourceValue else sourceValue
  | None => sourceValue
  end.

(** The properties of the destination of [mergeObject(target, source)] for
    two objects: those of the target, overwritten or extended by those of
    the source, property by property as in [mergeProperty].  The source's
    properties are mapped first, which keeps the recursion of [deepmerge]
    structural on the source. *)
Definition mergeObjectWith (rec : value → value → value)
    (targetFields sourceFields : gmap string value) : gmap string value :=
  merge (λ (t : option value) (s : option (option value → value)),
           match s with
           | Some s => Some (s t)
           | None => t
           end)
        targetFields
        (mergeProperty rec <$> sourceFields).

(** [deepmerge(target, source, { arrayMerge: (destArray, srcArray) => srcArray })].

    - source and target differ in being an array: the (cloned) source;
    - both arrays: [arrayMerge], which answers the source array;
    - otherwise [mergeObject].  A target that is not an object contributes
      no property, so the result is the source.

    The source operand is an object or an array at every call the plugin
    makes (the outer call is guarded by [isObject], nested calls by
    [isMergeableObject]); the last row below is never taken from there.
    Objects have no prototype here, so no property is skipped as unsafe
    (the package skips a source property whose name the target inherits
    without owning it). *)
Fixpoint deepmerge (target source : value) {struct source} : value :=
  match source with
  | VObj sourceFields =>
      match target with
      | VObj targetFields => VObj (mergeObjectWith deepmerge targetFields sourceFields)
      | _ => source
      end
  | VArr _ => source
  | _ => source
  end.


(** ** lodash: property paths *)

(** [stringToPath] on a path written without square brackets: the segments
    between the dots.  (lodash also reads [[0]] and [["quoted"]] segments;
    no key in this development contains a bracket.) *)
Fixpoint stringToPath (path : string) : list string :=
  match path with
  | EmptyString => [EmptyString]
  | String c rest =>
      if Ascii.eqb c "."%char then EmptyString :: stringToPath rest
      else match stringToPath rest with
           | segment :: segments => String c segment :: segments
           | [] => [String c EmptyString]
           end
  end.

(** The array index, below [n], that the property name [key] spells. *)
Definition indexOfKey (key : string) (n : nat) : option nat :=
  List.find (λ i, String.eqb key (pretty i)) (seq 0 n).

Fixpoint characters (s : string) : list value :=
  match s with
  | EmptyString => []
  | String c rest => VStr (String c EmptyString) :: characters rest
  end.

(** The own properties of an array or a string: its indices and [length]. *)
Definition indexed (v : value) : option (list value) :=
  match v with
  | VArr xs => Some xs
  | VStr s => Some (characters s)
  | _ => None
  end.

(** [object != null && hasOwnProperty.call(object, key)] *)
Definition baseHas (o : value) (key : string) : bool :=
  match o with
  | VObj f => bool_decide (is_Some (f !! key))
  | _ =>
      match indexed o with
      | Some xs => String.eqb key "length" || bool_decide (is_Some (indexOfKey key (length xs)))
      | None => false
      end
  end.

(** [object[key]], own properties only. *)
Definition getProp (o : value) (key : string) : value :=
  match o with
  | VObj f => prop f key
  | _ =>
      match indexed o with
      | Some xs =>
          if String.eqb key "length" then VNum (Z.of_nat (length xs))
          else default VUndefined (i ← indexOfKey key (length xs); xs !! i)
      | None => VUndefined
      end
  end.

(** The loop of [hasPath]: every segment must be an own property of the
    object reached so far. *)
Fixpoint hasPath (o : value) (path : list string) : bool :=
  match path with
  | [] => false
  | [key] => baseHas o key
  | key :: rest => baseHas o key && hasPath (getProp o key) rest
  end.

(** [has(object, path)] of lodash.has: a string that names a property of
    the object is that one key, any other string is split into a path. *)
Definition lodash_has (o : gmap string value) (path : string) : bool :=
  if bool_decide (is_Some (o !! path)) then true
  else hasPath (VObj o) (stringToPath path).

(** The loop of [baseGet]: follow the path while the object reached is
    neither [null] nor [undefined]. *)
Fixpoint baseGet (o : value) (path : list string) : value :=
  match path with
  | [] => o
  | key :: rest =>
      match o with
      | VUndefined | VNull => VUndefined
      | _ => baseGet (getProp o key) rest
      end
  end.

(** [get(object, path, defaultValue)] of lodash.get. *)
Definition lodash_get (o : gmap string value) (path : string) (defaultValue : value) : value :=
  let result :=
    if bool_decide (is_Some (o !! path)) then prop o path
    else baseGet (VObj o) (stringToPath path) in
  match result with
  | VUndefined => defaultValue
  | _ => result
  end.

(** ** The plugin instance and its environment *)

(** How a call ends: with a result, or by throwing. *)
Inductive completion (A : Type) : Type :=
  | Normal (result : A)
  | Throw (error : string).
Arguments Normal {A} result.
Arguments Throw {A} error.

(** A build output as [compilation.getAssets()] lists it. *)
Record Asset := {
  asset_name : string;
  asset_info : gmap string value;
}.

(** [options.merge]: [false], [true] or ['customize']. *)
Inductive mergeOption := MergeOff | MergeOn | MergeCustomize.

(** [options.publicPath]: [null], a boolean, a string prefix, or a function
    of the filename and the manifest (seen through its entries). *)
Inductive publicPathOption :=
  | PublicPathNull
  | PublicPathBool (b : bool)
  | PublicPathString (prefix : string)
  | PublicPathFunction (f : string → gmap string value → completion value).

Module Options.
Record t := {
  enabled : bool;
  merge : mergeOption;
  publicPath : publicPathOption;
  integrity : bool;
  integrityPropertyName : string;
}.
End Options.

(** A stage tapped on [hooks.customize]: [(entry, original, manifest, asset)]. *)
Definition customizeTap : Type :=
  value → value → gmap string value → option Asset → completion value.

(** A stage tapped on [hooks.transform]: [(assets, manifest)]. *)
Definition transformTap : Type :=
  value → gmap string value → completion value.

(** What does not change while the methods below run: the options, the
    stages tapped on the two waterfall hooks, and what the compiler
    contributes ([compiler.options.output.publicPath], absent when there is
    no compiler or no such option; the result of [getOutputPath()]). *)
Record Config := {
  options : Options.t;
  customize : list customizeTap;
  transform : list transformTap;
  compilerPublicPath : option string;
  outputPath : string;
}.

(** A parsed JSON document as the merge loop sees it: [null], on which
    [Object.entries] throws, or the entries [Object.entries] lists, in its
    order (the properties of an object, the indexed elements of an array or
    a string, nothing for a number or a boolean). *)
Inductive document :=
  | DocNull
  | DocEntries (entries : list (string * value)).

(** A file on disk: one that cannot be read, one that is not JSON, or a
    JSON document.  A path without a file is missing. *)
Inductive file :=
  | Unreadable
  | Malformed
  | Json (doc : document).

(** The process around the plugin: the cache and the output of
    [warn.once], the lock files held, the files on disk, the destinations
    whose directory cannot be created or which cannot be written, the files
    written and the assets emitted into the compilation. *)
Record Env := {
  warnCache : gset string;
  console : list string;
  locks : gset string;
  disk : gmap string file;
  noMkdir : gset string;
  noWrite : gset string;
  written : list (string * string);
  emitted : list (string * string);
}.

Record State := {
  config : Config;
  assets : gmap string value;
  assetNames : gmap string string;
  currentAsset : option Asset;
  isMerging : bool;
  env : Env;
}.

Definition with_assets (a : gmap string value) (s : State) : State :=
  {| config := config s; assets := a; assetNames := assetNames s;
     currentAsset := currentAsset s; isMerging := isMerging s; env := env s |}.

Definition with_assetNames (n : gmap string string) (s : State) : State :=
  {| config := config s; assets := assets s; assetNames := n;
     currentAsset := currentAsset s; isMerging := isMerging s; env := env s |}.

Definition with_isMerging (b : bool) (s : State) : State :=
  {| config := config s; assets := assets s; assetNames := assetNames s;
     currentAsset := currentAsset s; isMerging := b; env := env s |}.

Definition with_env (e : Env) (s : State) : State :=
  {| config := config s; assets := assets s; assetNames := assetNames s;
     currentAsset := currentAsset s; isMerging := isMerging s; env := e |}.

Definition with_warning (message : string) (e : Env) : Env :=
  {| warnCache := {[message]} ∪ warnCache e; console := console e ++ [message];
     locks := locks e; disk := disk e; noMkdir := noMkdir e; noWrite := noWrite e;
     written := written e; emitted := emitted e |}.

Definition with_locks (l : gset string) (e : Env) : Env :=
  {| warnCache := warnCache e; console := console e;
     locks := l; disk := disk e; noMkdir := noMkdir e; noWrite := noWrite e;
     written := written e; emitted := emitted e |}.

Definition with_written (w : list (string * string)) (e : Env) : Env :=
  {| warnCache := warnCache e; console := console e;
     locks := locks e; disk := disk e; noMkdir := noMkdir e; noWrite := noWrite e;
     written := w; emitted := emitted e |}.

Definition with_emitted (a : list (string * string)) (e : Env) : Env :=
  {| warnCache := warnCache e; console := console e;
     locks := locks e; disk := disk e; noMkdir := noMkdir e; noWrite := noWrite e;
     written := written e; emitted := a |}.

(** ** The method monad *)

(** A method reads and updates the state and ends normally or by throwing;
    what it did to the state before throwing stays done. *)
Definition M (A : Type) : Type := State → completion A * State.

Global Instance M_ret : MRet M := λ A a s, (Normal a, s).

Global Instance M_bind : MBind M := λ A B k m s,
  match m s with
  | (Normal a, s') => k a s'
  | (Throw e, s') => (Throw e, s')
  end.

Definition gets {A} (f : State → A) : M A := λ s, (Normal (f s), s).
Definition modify (f : State → State) : M unit := λ s, (Normal tt, f s).
Definition throw {A} (e : string) : M A := λ s, (Throw e, s).
Definition lift {A} (c : completion A) : M A := λ s, (c, s).
Definition when (b : bool) (m : M unit) : M unit := if b then m else mret tt.

(** [try { body } catch (err) { } finally { cleanup }] with an empty
    handler, as in [maybeMerge]. *)
Definition tryCatchFinally (body cleanup : M unit) : M unit := λ s,
  match body s with
  | (_, s') => cleanup s'
  end.

(** [for (const x of xs) body(x)] *)
Fixpoint forOf {A} (xs : list A) (body : A → M unit) : M unit :=
  match xs with
  | [] => mret tt
  | x :: rest => body x ;; forOf rest body
  end.

(** ** helpers.js: warnings and lock files *)

(** Modelled from the spec: [warn.once] of helpers.js, which is not part of
    the sources at hand.  "Log a one-time warning": a message reaches the
    console unless the cache already holds it, and is cached. *)
Definition warn_once (message : string) : M unit :=
  modify (λ s,
    if bool_decide (message ∈ warnCache (env s)) then s
    else with_env (with_warning message (env s)) s).

(** Modelled from the spec: [lock] of helpers.js.  The lock is advisory and
    keyed on the path; acquiring one that is held fails with "an explicit
    locking error". *)
Definition lock (path : string) : M unit := λ s,
  if bool_decide (path ∈ locks (env s)) then (Throw "lock", s)
  else (Normal tt, with_env (with_locks ({[path]} ∪ locks (env s)) (env s)) s).

(** Modelled from the spec: [unlock] of helpers.js. *)
Definition unlock (path : string) : M unit :=
  modify (λ s, with_env (with_locks (locks (env s) ∖ {[path]}) (env s)) s).

(** Modelled from the spec: [lockSync] and [unlockSync] of helpers.js, the
    synchronous variants of the two above. *)
Definition lockSync : string → M unit := lock.
Definition unlockSync : string → M unit := unlock.

(** ** Node and webpack services *)

(** [JSON.parse(fs.readFileSync(path, { encoding: 'utf8' }))] *)
Definition readJSON (path : string) : M document := λ s,
  match disk (env s) !! path with
  | Some (Json doc) => (Normal doc, s)
  | Some Malformed => (Throw "SyntaxError", s)
  | Some Unreadable => (Throw "EACCES", s)
  | None => (Throw "ENOENT", s)
  end.

(** [Object.entries(data)] *)
Definition Object_entries (data : document) : M (list (string * value)) :=
  match data with
  | DocNull => throw "TypeError"
  | DocEntries entries => mret entries
  end.

(** [fs.promises.mkdir(path.dirname(destination), { recursive: true })] *)
Definition mkdir_for (destination : string) : M unit := λ s,
  if bool_decide (destination ∈ noMkdir (env s)) then (Throw "mkdir", s)
  else (Normal tt, s).

(** [fs.promises.writeFile(destination, text)] *)
Definition writeFile (destination text : string) : M unit := λ s,
  if bool_decide (destination ∈ noWrite (env s)) then (Throw "writeFile", s)
  else (Normal tt, with_env (with_written (written (env s) ++ [(destination, text)]) (env s)) s).

(** [compilation.emitAsset(output, new RawSource(text, false))] *)
Definition emitAsset (output text : string) : M unit :=
  modify (λ s, with_env (with_emitted (emitted (env s) ++ [(output, text)]) (env s)) s).

(** [SyncWaterfallHook.call]: every stage receives the value so far; a stage
    that returns [undefined] leaves it as it is. *)
Fixpoint callWaterfall (taps : list (value → completion value)) (current : value)
    : completion value :=
  match taps with
  | [] => Normal current
  | tap :: rest =>
      match tap current with
      | Normal VUndefined => callWaterfall rest current
      | Normal result => callWaterfall rest result
      | Throw e => Throw e
      end
  end.

(** ** Property keys *)

(** ToPropertyKey on the values at hand, for [this.assets[key] = value]. *)
Fixpoint toPropertyKey (key : value) : string :=
  match key with
  | VUndefined => "undefined"
  | VNull => "null"
  | VBool true => "true"
  | VBool false => "false"
  | VNum n => pretty n
  | VStr s => s
  | VArr xs =>
      String.concat ","
        ((λ x, match x with
               | VUndefined | VNull => ""
               | _ => toPropertyKey x
               end) <$> xs)
  | VObj _ => "[object Object]"
  end.

(** ** WebpackAssetsManifest *)

Definition backslash : ascii := "092"%char.
Definition slash : ascii := "/"%char.

(** [fixKey]: [key.replace(/\\/g, '/')] on a string key. *)
Fixpoint fixKey (key : string) : string :=
  match key with
  | EmptyString => EmptyString
  | String c rest => String (if Ascii.eqb c backslash then slash else c) (fixKey rest)
  end.

(** [setRaw]: [this.assets[key] = value] *)
Definition setRaw (key : string) (v : value) : M unit :=
  modify (λ s, with_assets (<[key := v]> (assets s)) s).

(** [has]: [has(this.assets, key) || has(this.assets, this.fixKey(key))].
    The method reads nothing but [this.assets], which is its last
    argument here. *)
Definition has (key : string) (assets : gmap string value) : bool :=
  lodash_has assets key || lodash_has assets (fixKey key).

(** [get]:
    [this.assets[key] || this.assets[this.fixKey(key)] || defaultValue],
    again as a function of [this.assets]. *)
Definition get (key : string) (defaultValue : value) (assets : gmap string value) : value :=
  js_or (js_or (prop assets key) (prop assets (fixKey key))) defaultValue.


(** What [get(this, path)] can reach from the instance along a path that
    starts at [currentAsset]: [null], or the asset with its [name] and
    [info]. *)
Definition this_object (s : State) : gmap string value :=
  {[ "currentAsset" :=
       match currentAsset s with
       | None => VNull
       | Some a => VObj {[ "name" := VStr (asset_name a); "info" := VObj (asset_info a) ]}
       end ]}.

Definition isCustomize (m : mergeOption) : bool :=
  match m with
  | MergeCustomize => true
  | _ => false
  end.

(** Truthiness of [options.merge]. *)
Definition mergeEnabled (m : mergeOption) : bool :=
  match m with
  | MergeOff => false
  | _ => true
  end.

(** [let { key = fixedKey } = entry]: the default stands in for a property
    that is missing or [undefined]. *)
Definition destructure (entry : gmap string value) (key : string) (defaultValue : value) : value :=
  match prop entry key with
  | VUndefined => defaultValue
  | v => v
  end.

(** [handleBeforeRun]: [this.assetNames.clear()] *)
Definition handleBeforeRun : M unit :=
  modify (with_assetNames ∅).

(** The two run-start hooks of the compiler, each a list of tapped
    handlers. *)
Record CompilerHooks := {
  beforeRun : list (M unit);
  watchRun : list (M unit);
}.

(** [SyncHook.call]: the taps in the order in which they were added. *)
Definition callHook (taps : list (M unit)) : M unit := forOf taps id.

(** [apply], as far as the run-start hooks go: a disabled plugin taps
    nothing. *)
Definition apply (compiler : CompilerHooks) (s : State) : CompilerHooks :=
  if Options.enabled (options (config s)) then
    {| beforeRun := beforeRun compiler ++ [handleBeforeRun];
       watchRun := watchRun compiler ++ [handleBeforeRun] |}
  else compiler.


(** [this.hooks.customize.call({ key: fixedKey, value: publicPath },
    { key, value }, this, this.currentAsset)] *)
Definition callCustomize (fixedKey : string) (publicPath : value)
    (key : string) (v : value) : M value :=
  cfg ← gets config;
  a ← gets assets;
  asset ← gets currentAsset;
  lift (callWaterfall
          ((λ (tap : customizeTap) entry,
              tap entry (VObj {[ "key" := VStr key; "value" := v ]}) a asset)
           <$> customize cfg)
          (VObj {[ "key" := VStr fixedKey; "value" := publicPath ]})).

Section Methods.

(** [url.resolve(from, to)] of Node. *)
Variable url_resolve : string → string → string.

(** [varType] of helpers.js, which names the type of a value in the
    warning; helpers.js is not part of the sources at hand. *)
Variable varType : value → string.

(** [JSON.stringify(data, replacer, space)] with the configured replacer
    and indentation: the text, or nothing where JavaScript answers
    [undefined]. *)
Variable JSON_stringify : value → option string.

(** [getPublicPath] *)
Definition getPublicPath (filename : value) : M value :=
  match filename with
  | VStr name =>
      cfg ← gets config;
      match Options.publicPath (options cfg) with
      | PublicPathFunction f => a ← gets assets; lift (f name a)
      | PublicPathString prefix => mret (VStr (url_resolve prefix name))
      | PublicPathBool true =>
          mret (VStr (url_resolve (default "" (compilerPublicPath cfg)) name))
      | _ => mret filename
      end
  | _ => mret filename
  end.

(** [set] *)
Definition set (key : string) (v : value) : M unit :=
  merging ← gets isMerging;
  cfg ← gets config;
  if merging && negb (isCustomize (Options.merge (options cfg))) then
    setRaw key v
  else
    let fixedKey := fixKey key in
    publicPath ← getPublicPath v;
    entry ← callCustomize fixedKey publicPath key v;
    match entry with
    | VBool false => mret tt
    | VObj e =>
        let key' := destructure e "key" (VStr fixedKey) in
        let value' := destructure e "value" publicPath in
        this ← gets this_object;
        let value'' :=
          if value_eqb value' publicPath && Options.integrity (options cfg) then
            VObj {[ "src" := value';
                    "integrity" :=
                      lodash_get this
                        ("currentAsset.info." +:+ Options.integrityPropertyName (options cfg))
                        (VStr "") ]}
          else value' in
        setRaw (toPropertyKey key') value''
    | _ =>
        warn_once ("Unexpected customize() return type: " +:+ varType entry) ;;
        setRaw fixedKey publicPath
    end.

(** The body of the loop of [maybeMerge]. *)
Definition mergeEntry (entry : string * value) : M unit :=
  let '(key, oldValue) := entry in
  known ← gets (has key ∘ assets);
  if known : bool then
    currentValue ← gets (get key VUndefined ∘ assets);
    if isObject oldValue && isObject currentValue then
      set key (deepmerge oldValue currentValue)
    else mret tt
  else set key oldValue.

(** [maybeMerge] *)
Definition maybeMerge : M unit :=
  cfg ← gets config;
  if mergeEnabled (Options.merge (options cfg)) then
    tryCatchFinally
      (modify (with_isMerging true) ;;
       data ← readJSON (outputPath cfg);
       entries ← Object_entries data;
       forOf entries mergeEntry)
      (modify (with_isMerging false))
  else mret tt.

(** [toJSON]: the transform waterfall over the entries.  The stage the
    constructor taps reorders the keys and changes nothing else, so it is
    the identity on a finite map; the stages of the configuration
    follow. *)
Definition toJSON : M value :=
  cfg ← gets config;
  a ← gets assets;
  lift (callWaterfall ((λ (tap : transformTap) data, tap data a) <$> transform cfg) (VObj a)).

(** [toString]:
    [JSON.stringify(this, this.options.replacer, this.options.space) || '{}'] *)
Definition toString : M string :=
  data ← toJSON;
  mret (default "{}" (JSON_stringify data)).

(** [emitAssetsManifest], for the path [output] that [getManifestPath]
    answers. *)
Definition emitAssetsManifest (output : string) : M unit :=
  cfg ← gets config;
  when (mergeEnabled (Options.merge (options cfg))) (lockSync output) ;;
  maybeMerge ;;
  text ← toString;
  emitAsset output text ;;
  when (mergeEnabled (Options.merge (options cfg))) (unlockSync output).

(** [writeTo] *)
Definition writeTo (destination : string) : M unit :=
  lock destination ;;
  mkdir_for destination ;;
  text ← toString;
  writeFile destination text ;;
  unlock destination.

End Methods.

(** ** The constructor, and instances for the examples *)

(** [get defaultOptions()], for the options modelled. *)
Definition defaultOptions : Options.t :=
  {| Options.enabled := true;
     Options.merge := MergeOff;
     Options.publicPath := PublicPathNull;
     Options.integrity := false;
     Options.integrityPropertyName := "integrity" |}.

Definition withMerge (m : mergeOption) (o : Options.t) : Options.t :=
  {| Options.enabled := Options.enabled o;
     Options.merge := m;
     Options.publicPath := Options.publicPath o;
     Options.integrity := Options.integrity o;
     Options.integrityPropertyName := Options.integrityPropertyName o |}.

Definition withIntegrity (propertyName : string) (o : Options.t) : Options.t :=
  {| Options.enabled := Options.enabled o;
     Options.merge := Options.merge o;
     Options.publicPath := Options.publicPath o;
     Options.integrity := true;
     Options.integrityPropertyName := propertyName |}.


(** Where the examples keep the manifest. *)
Definition manifestPath : string := "/build/assets-manifest.json".

(** A process in which nothing has happened yet, with the given files on
    disk. *)
Definition freshEnv (files : gmap string file) : Env :=
  {| warnCache := ∅; console := []; locks := ∅; disk := files;
     noMkdir := ∅; noWrite := ∅; written := []; emitted := [] |}.

(** The constructor, for options whose [assets] is [seed]: no stage is
    tapped on [hooks.customize] yet, no compiler is known. *)
Definition newManifest (o : Options.t) (seed : gmap string value)
    (files : gmap string file) : State :=
  {| config := {| options := o; customize := []; transform := [];
                  compilerPublicPath := None; outputPath := manifestPath |};
     assets := seed;
     assetNames := ∅;
     currentAsset := None;
     isMerging := false;
     env := freshEnv files |}.

Definition withCurrentAsset (a : Asset) (s : State) : State :=
  {| config := config s; assets := assets s; assetNames := assetNames s;
     currentAsset := Some a; isMerging := isMerging s; env := env s |}.

Definition withCustomize (taps : list customizeTap) (s : State) : State :=
  {| config := {| options := options (config s); customize := taps;
                  transform := transform (config s);
                  compilerPublicPath := compilerPublicPath (config s);
                  outputPath := outputPath (config s) |};
     assets := assets s; assetNames := assetNames s;
     currentAsset := currentAsset s; isMerging := isMerging s; env := env s |}.

Definition withTransform (taps : list transformTap) (s : State) : State :=
  {| config := {| options := options (config s); customize := customize (config s);
                  transform := taps;
                  compilerPublicPath := compilerPublicPath (config s);
                  outputPath := outputPath (config s) |};
     assets := assets s; assetNames := assetNames s;
     currentAsset := currentAsset s; isMerging := isMerging s; env := env s |}.

(** A disk on which [destination] cannot be written. *)
Definition withReadOnly (destination : string) (s : State) : State :=
  with_env {| warnCache := warnCache (env s); console := console (env s);
              locks := locks (env s); disk := disk (env s);
              noMkdir := noMkdir (env s); noWrite := {[destination]} ∪ noWrite (env s);
              written := written (env s); emitted := emitted (env s) |} s.

(** Stand-ins, in the examples, for the three services the methods take as
    parameters.  No example configures a public path or reads the text
    written; the type names are those of [Object.prototype.toString]. *)
Definition joinPath (from to : string) : string := from +:+ to.

Definition typeName (v : value) : string :=
  match v with
  | VUndefined => "Undefined"
  | VNull => "Null"
  | VBool _ => "Boolean"
  | VNum _ => "Number"
  | VStr _ => "String"
  | VArr _ => "Array"
  | VObj _ => "Object"
  end.

Definition noText (data : value) : option string := None.

(** "a", backslash, "b" *)
Definition backslashKey : string := String "a" (String backslash "b").




(** A customize stage that throws on the key ["b.js"] and leaves every other
    entry alone, in a merge with ['customize'] of two entries. *)
Definition throwOnB : customizeTap :=
  λ entry _ _ _,
    match entry with
    | VObj e =>
        match prop e "key" with
        | VStr key => if String.eqb key "b.js" then Throw "customize" else Normal VUndefined
        | _ => Normal VUndefined
        end
    | _ => Normal VUndefined
    end.

Definition failingSecondEntry : State :=
  withCustomize [throwOnB]
    (newManifest (withMerge MergeCustomize defaultOptions)
       ∅
       {[ manifestPath :=
            Json (DocEntries [("a.js", VStr "a.1f3.js"); ("b.js", VStr "b.9c2.js")]) ]}).

(** The scenario of the spec: [{"a.js": {"size": 10}}] on disk,
    [{"a.js": {"hash": "x"}}] in memory. *)
Definition sizeOnDisk : list (string * value) :=
  [("a.js", VObj {[ "size" := VNum 10 ]})].

Definition sizeAndHash : State :=
  newManifest (withMerge MergeOn defaultOptions)
    {[ "a.js" := VObj {[ "hash" := VStr "x" ]} ]}
    {[ manifestPath := Json (DocEntries sizeOnDisk) ]}.

(** A manifest on disk that is not JSON. *)
Definition malformedOnDisk : State :=
  newManifest (withMerge MergeOn defaultOptions)
    {[ "a.js" := VStr "a.1f3.js" ]}
    {[ manifestPath := Malformed ]}.

(** Integrity on, with a property name that contains a dot, and an asset
    whose info records a digest under that name. *)
Definition dottedAsset : Asset :=
  {| asset_name := "foo.abc123.js";
     asset_info := {[ "sri.hash" := VStr "sha256-AbC" ]} |}.

Definition dottedIntegrity : State :=
  withCurrentAsset dottedAsset
    (newManifest (withIntegrity "sri.hash" defaultOptions) ∅ ∅).

(** A disk on which the manifest cannot be written; a transform stage that
    throws, with merge on; a customize stage that answers a number; a
    string as public path. *)
Definition readOnlyDisk : State :=
  withReadOnly manifestPath (newManifest defaultOptions ∅ ∅).

Definition throwingTransform : State :=
  withTransform [λ _ _, Throw "transform"]
    (newManifest (withMerge MergeOn defaultOptions) ∅ ∅).

Definition numericCustomize : State :=
  withCustomize [λ _ _ _ _, Normal (VNum 7)] (newManifest defaultOptions ∅ ∅).


(** ** The entries across [apply]: shared objects *)

(** [this.assets] and [this.options.assets] are references.  The constructor
    makes them one object; a stage tapped on [hooks.options] can answer
    options whose [assets] is another object.  The heap maps a reference to
    the own properties of the object it names. *)
Module AfterOptions.

Record Plugin := {
  this_assets : nat;
  options_assets : nat;
}.

(** One source of [Object.assign]: [target[key] = source[key]] for every
    own property of the source, read when its turn comes. *)
Definition assignFrom (target : nat) (h : gmap nat (gmap string value)) (source : nat)
    : gmap nat (gmap string value) :=
  match h !! target, h !! source with
  | Some t, Some s => <[target := s ∪ t]> h
  | _, _ => h
  end.

(** [Object.assign(target, ...sources)]; it answers [target]. *)
Definition Object_assign (target : nat) (sources : list nat)
    (h : gmap nat (gmap string value)) : gmap nat (gmap string value) :=
  foldl (assignFrom target) h sources.

(** The constructor: [this.assets = this.options.assets], the object the
    caller passed as [options.assets]. *)
Definition construct (optionsAssets : nat) : Plugin :=
  {| this_assets := optionsAssets; options_assets := optionsAssets |}.

(** [setRaw] *)
Definition setRaw (key : string) (v : value) (p : Plugin)
    (h : gmap nat (gmap string value)) : gmap nat (gmap string value) :=
  alter (insert key v) (this_assets p) h.

(** What [this.hooks.options.call(this.options)] makes of
    [options.assets]: the reference in the options it answers. *)
Definition optionsStage : Type :=
  nat → gmap nat (gmap string value) → nat * gmap nat (gmap string value).

(** [apply] up to the afterOptions tap:
    [this.assets = Object.assign(this.options.assets, this.assets, this.options.assets)] *)
Definition apply (stage : optionsStage) (p : Plugin) (h : gmap nat (gmap string value))
    : Plugin * gmap nat (gmap string value) :=
  let '(r, h1) := stage (options_assets p) h in
  ({| this_assets := r; options_assets := r |},
   Object_assign r [this_assets p; r] h1).

(** The entries of the manifest. *)
Definition entries (p : Plugin) (h : gmap nat (gmap string value)) : gmap string value :=
  default ∅ (h !! this_assets p).

(** For the examples: an instance built without seed entries, to which
    [setRaw] adds an entry before [apply]; and a stage tapped on
    [hooks.options] that answers options whose [assets] is a new object
    with an entry under the same key. *)
Definition earlyEntry : gmap nat (gmap string value) :=
  setRaw "app.js" (VStr "early.js") (construct 0) {[ 0%nat := ∅ ]}.

Definition seedEntries : gmap string value := {[ "app.js" := VStr "seed.js" ]}.

Definition seededOptions : optionsStage :=
  λ _ h, (1%nat, <[1%nat := seedEntries]> h).

End AfterOptions.


(** ** The rest of the store: [delete] and the proxy *)

Module Manifest.

(** [delete].  [delete this.assets[key]] answers [true], also when the
    object has no such property of its own. *)
Definition delete (key : string) : M bool :=
  a ← gets assets;
  if lodash_has a key then
    modify (with_assets (base.delete key a)) ;; mret true
  else
    let key := fixKey key in
    if lodash_has a key then
      modify (with_assets (base.delete key a)) ;; mret true
    else mret false.

End Manifest.

(** The four traps of the handler that [getProxy] gives to [new Proxy]. *)
Module Handler.
Record t := {
  has : string → M bool;
  get : string → M value;
  set : string → value → M bool;
  deleteProperty : string → M bool;
}.
End Handler.

Section Proxy.

Variable url_resolve : string → string → string.
Variable varType : value → string.

(** [getProxy]: [has], [get] and [delete] of the manifest behind the traps
    of the same purpose, and behind the [set] trap [setRaw] or [set]
    followed by [has(property)]. *)
Definition getProxy (raw : bool) : Handler.t :=
  let setMethod := if raw then setRaw else set url_resolve varType in
  {| Handler.has := λ property, gets (has property ∘ assets);
     Handler.get := λ property, gets (get property VUndefined ∘ assets);
     Handler.set := λ property v,
       setMethod property v ;; gets (has property ∘ assets);
     Handler.deleteProperty := Manifest.delete |}.

End Proxy.

(** ** The instance beyond the store *)

(** [options.writeToDisk]: ['auto'] or a boolean. *)
Inductive writeToDiskOption := WriteAuto | WriteBool (b : bool).

(** The options that the methods below read beside those of [Options.t]:
    [fileExtRegex] (a regular expression, here what [filename.match] makes
    of it: the first match, if any; or no expression at all), [output],
    [contextRelativeKeys], [entrypoints], [entrypointsKey] (a string, or
    [false]), [writeToDisk] and [integrityHashes]. *)
Module MoreOptions.
Record t := {
  fileExtRegex : option (string → option string);
  output : string;
  contextRelativeKeys : bool;
  entrypoints : bool;
  entrypointsKey : option string;
  writeToDisk : writeToDiskOption;
  integrityHashes : list string;
}.
End MoreOptions.

(** The whole instance: the state of the store, the remaining options,
    [this.hmrRegex] (what [RegExp.test] makes of it, when there is one),
    the compilation counter, and from around it the flag
    [!!process.env.WEBPACK_DEV_SERVER] and [this.compiler.outputPath]. *)
Record Plugin := {
  state : State;
  moreOptions : MoreOptions.t;
  hmrRegex : option (string → bool);
  compilationCounter : Z;
  devServer : bool;
  compilerOutputPath : string;
}.

Definition with_state (s : State) (p : Plugin) : Plugin :=
  {| state := s; moreOptions := moreOptions p; hmrRegex := hmrRegex p;
     compilationCounter := compilationCounter p; devServer := devServer p;
     compilerOutputPath := compilerOutputPath p |}.

Definition with_compilationCounter (n : Z) (p : Plugin) : Plugin :=
  {| state := state p; moreOptions := moreOptions p; hmrRegex := hmrRegex p;
     compilationCounter := n; devServer := devServer p;
     compilerOutputPath := compilerOutputPath p |}.

Definition with_currentAsset (a : option Asset) (s : State) : State :=
  {| config := config s; assets := assets s; assetNames := assetNames s;
     currentAsset := a; isMerging := isMerging s; env := env s |}.

(** The methods of the whole instance, in the same style as [M]. *)
Definition P (A : Type) : Type := Plugin → completion A * Plugin.

Global Instance P_ret : MRet P := λ A a p, (Normal a, p).

Global Instance P_bind : MBind P := λ A B k m p,
  match m p with
  | (Normal a, p') => k a p'
  | (Throw e, p') => (Throw e, p')
  end.

(** A method of the store, run on the instance. *)
Definition onState {A} (m : M A) : P A := λ p,
  match m (state p) with
  | (c, s') => (c, with_state s' p)
  end.

Definition getsP {A} (f : Plugin → A) : P A := λ p, (Normal (f p), p).
Definition modifyP (f : Plugin → Plugin) : P unit := λ p, (Normal tt, f p).

Fixpoint forOfP {A} (xs : list A) (body : A → P unit) : P unit :=
  match xs with
  | [] => mret tt
  | x :: rest => body x ;; forOfP rest body
  end.

(** [inDevServer] *)
Definition inDevServer (p : Plugin) : bool := devServer p.

(** [isHMR] *)
Definition isHMR (filename : string) (p : Plugin) : bool :=
  match hmrRegex p with
  | Some test => test filename
  | None => false
  end.

(** [filename.split(/[?#]/)[0]] *)
Fixpoint beforeQueryOrHash (filename : string) : string :=
  match filename with
  | EmptyString => EmptyString
  | String c rest =>
      if Ascii.eqb c "?"%char || Ascii.eqb c "#"%char then EmptyString
      else String c (beforeQueryOrHash rest)
  end.

(** [handleCompilation], as far as the instance goes: it counts the
    compilation; the taps it adds belong to the compilation. *)
Definition handleCompilation : P unit :=
  modifyP (λ p, with_compilationCounter (compilationCounter p + 1) p).

(** A build output with its content: [asset.name], [asset.info] and
    [asset.source.source()]. *)
Record Output := {
  output_asset : Asset;
  output_source : string;
}.

(** What the methods below ask of a compilation:
    [getStats().toJson(...).assetsByChunkName] in the order of
    [Object.keys], [getAssets()], [entrypoints] with the files of each,
    [compiler.outputPath], and [getPath(filename, data)] for the data that
    [getManifestPath] passes. *)
Record Compilation := {
  assetsByChunkName : list (string * value);
  outputs : list Output;
  compilation_entrypoints : list (string * list string);
  compilation_outputPath : string;
  getPath : string → string;
}.

Definition getAssets (c : Compilation) : list Asset := output_asset <$> outputs c.

(** [asset.info.sourceFilename], which webpack types as a string: the name
    when the property is a non-empty string, nothing when it is falsy.
    Other values of the property are outside the model and read as
    nothing. *)
Definition sourceFilenameOf (info : gmap string value) : option string :=
  match prop info "sourceFilename" with
  | VStr f => if String.eqb f "" then None else Some f
  | _ => None
  end.

(** [s.replace(/^\.+/, '')] *)
Fixpoint stripLeadingDots (s : string) : string :=
  match s with
  | String c rest => if Ascii.eqb c "."%char then stripLeadingDots rest else s
  | EmptyString => EmptyString
  end.

Section Instance.

Variable url_resolve : string → string → string.
Variable varType : value → string.
Variable JSON_stringify : value → option string.

(** [maybeArrayWrap] and [findMapKeysByValue] of helpers.js, which is not
    part of the sources at hand: what the first makes of the files of a
    chunk, and the keys the second lists for a map and a value. *)
Variable maybeArrayWrap : value → list string.
Variable findMapKeysByValue : gmap string string → string → list string.

(** [getSRIHash] of helpers.js: the digest for a list of algorithms and a
    content. *)
Variable getSRIHash : list string → string → string.

(** [path.extname], [path.basename], [path.dirname], [path.join] and
    [path.relative] of Node, and [String.prototype.toLowerCase]. *)
Variable path_extname : string → string.
Variable path_basename : string → string.
Variable path_dirname : string → string.
Variable path_join : string → string → string.
Variable path_relative : string → string → string.
Variable toLowerCase : string → string.

(** [getExtension], for a filename that is a string. *)
Definition getExtension (filename : string) (p : Plugin) : string :=
  if String.eqb filename "" then ""
  else
    let filename := beforeQueryOrHash filename in
    match MoreOptions.fileExtRegex (moreOptions p) with
    | Some regex => default "" (regex filename)
    | None => path_extname filename
    end.

(** [this.assetNames.set(key, filename)] *)
Definition recordName (key filename : string) : P unit :=
  modifyP (λ p, with_state (with_assetNames (<[key := filename]> (assetNames (state p)))
                              (state p)) p).

(** [processAssetsByChunkName] *)
Definition processAssetsByChunkName (assets : list (string * value))
    : P (gmap string string) :=
  forOfP assets (λ '(chunkName, files),
    hot ← getsP (λ p f, isHMR f p);
    forOfP (List.filter (λ f, negb (hot f)) (maybeArrayWrap files)) (λ filename,
      ext ← getsP (getExtension filename);
      recordName (chunkName +:+ ext) filename)) ;;
  getsP (assetNames ∘ state).

(** One step of the reduction in [getEntrypointFilesGroupedByExtension]. *)
Definition groupFilesByExtension (p : Plugin) (files : gmap string value)
    (file : string) : gmap string value :=
  let ext := toLowerCase (stripLeadingDots (getExtension file p)) in
  let matchingAssets :=
    (λ key, js_or (prop (assets (state p)) key) (VStr key))
      <$> findMapKeysByValue (assetNames (state p)) file in
  let sofar := match files !! ext with
               | Some (VArr xs) => xs
               | _ => []
               end in
  <[ext := VArr (sofar ++ matchingAssets)]> files.

(** [getEntrypointFilesGroupedByExtension] *)
Definition getEntrypointFilesGroupedByExtension
    (entrypoints : list (string * list string)) (p : Plugin) : gmap string value :=
  foldl (λ grouped '(name, files),
           <[name := VObj (foldl (groupFilesByExtension p) ∅
                             (List.filter (λ f, negb (isHMR f p)) files))]> grouped)
        ∅ entrypoints.

(** [getManifestPath] *)
Definition getManifestPath (c : Compilation) (filename : string) : string :=
  getPath c filename.

(** [emitAssetsManifest], with the path it computes. *)
Definition emitManifest (c : Compilation) : P unit :=
  p ← getsP id;
  onState (emitAssetsManifest url_resolve varType JSON_stringify
             (getManifestPath c
                (if inDevServer p then path_basename (MoreOptions.output (moreOptions p))
                 else path_relative (compilation_outputPath c)
                        (outputPath (config (state p)))))).

(** The body of the inner loop of [handleAfterProcessAssets]:
    [this.currentAsset = asset; this.set(key, asset.name);
    this.currentAsset = null]. *)
Definition setForAsset (asset : Asset) (key : string) : P unit :=
  onState (modify (with_currentAsset (Some asset))) ;;
  onState (set url_resolve varType key (VStr (asset_name asset))) ;;
  onState (modify (with_currentAsset None)).

(** The keys under which [handleAfterProcessAssets] sets an asset: those
    the index lists for its name and, when it lists none, the source
    filename of the asset or its name. *)
Definition keysFor (asset : Asset) (p : Plugin) : list string :=
  match findMapKeysByValue (assetNames (state p)) (asset_name asset) with
  | [] =>
      [match sourceFilenameOf (asset_info asset) with
       | Some sourceFilename =>
           if MoreOptions.contextRelativeKeys (moreOptions p) then sourceFilename
           else path_basename sourceFilename
       | None => asset_name asset
       end]
  | sourceFilenames => sourceFilenames
  end.

(** [handleAfterProcessAssets].  The keys that [for ... in] walks are
    distinct, and [setRaw] under distinct keys commutes: the order in which
    the entry points are written is left to the map. *)
Definition handleAfterProcessAssets (c : Compilation) : P unit :=
  processAssetsByChunkName (assetsByChunkName c) ;;
  forOfP (getAssets c) (λ asset,
    sourceFilenames ← getsP (keysFor asset);
    forOfP sourceFilenames (setForAsset asset)) ;;
  more ← getsP moreOptions;
  (if MoreOptions.entrypoints more then
     entrypoints ← getsP (getEntrypointFilesGroupedByExtension
                            (compilation_entrypoints c));
     match MoreOptions.entrypointsKey more with
     | None =>
         forOfP (map_to_list entrypoints) (λ '(key, files), onState (setRaw key files))
     | Some key => onState (setRaw key (VObj entrypoints))
     end
   else mret tt) ;;
  modifyP (λ p, with_compilationCounter (compilationCounter p - 1) p) ;;
  counter ← getsP compilationCounter;
  if (counter =? 0)%Z then emitManifest c else mret tt.

(** [shouldWriteToDisk] *)
Definition shouldWriteToDisk (c : Compilation) (p : Plugin) : bool :=
  match MoreOptions.writeToDisk (moreOptions p) with
  | WriteAuto =>
      inDevServer p
      && String.prefix ".."
           (path_relative (compilerOutputPath p)
              (getManifestPath c (outputPath (config (state p)))))
  | WriteBool b => b
  end.

(** [handleAfterEmit] *)
Definition handleAfterEmit (c : Compilation) : P unit :=
  write ← getsP (shouldWriteToDisk c);
  if write : bool then
    destination ← getsP (λ p, getManifestPath c (outputPath (config (state p))));
    onState (writeTo JSON_stringify destination)
  else mret tt.

(** [recordSubresourceIntegrity]: what it does to the assets of the
    compilation. *)
Definition recordSubresourceIntegrity (c : Compilation) (p : Plugin) : Compilation :=
  let integrityPropertyName :=
    Options.integrityPropertyName (options (config (state p))) in
  {| assetsByChunkName := assetsByChunkName c;
     outputs :=
       (λ o,
          if truthy (prop (asset_info (output_asset o)) integrityPropertyName) then o
          else
            {| output_asset :=
                 {| asset_name := asset_name (output_asset o);
                    asset_info :=
                      <[integrityPropertyName :=
                          VStr (getSRIHash (MoreOptions.integrityHashes (moreOptions p))
                                  (output_source o))]>
                        (asset_info (output_asset o)) |};
               output_source := output_source o |})
       <$> outputs c;
     compilation_entrypoints := compilation_entrypoints c;
     compilation_outputPath := compilation_outputPath c;
     getPath := getPath c |}.

(** What an asset module of a chunk, or a module whose loader emits a file,
    contributes: [module.userRequest], the filename of the output, and the
    info of the asset. *)
Definition sourceFilenameFor (context userRequest filename : string) (p : Plugin)
    : string :=
  if MoreOptions.contextRelativeKeys (moreOptions p) then
    path_relative context userRequest
  else path_join (path_dirname filename) (path_basename userRequest).

(** The [emitFile] that [handleNormalModuleLoader] puts in the place of
    the loader's: it answers the info it passes on to the original. *)
Definition emitFile (context userRequest name : string) (assetInfo : gmap string value)
    : P (gmap string value) :=
  same ← getsP (λ p, String.eqb (getExtension userRequest p) (getExtension name p));
  if same : bool then
    sourceFilename ← getsP (sourceFilenameFor context userRequest name);
    recordName sourceFilename name ;;
    mret (<["userRequest" := VStr userRequest]>
            (<["sourceFilename" := VStr sourceFilename]> assetInfo))
  else mret assetInfo.

End Instance.

(** What a merge leaves alone between two states: the configuration, the
    asset-name index, the current asset, and of the environment the lock
    files, the disk and what was written and emitted; and no entry is
    lost. *)
Definition keeps (s s' : State) : Prop :=
  config s' = config s
  ∧ assetNames s' = assetNames s
  ∧ currentAsset s' = currentAsset s
  ∧ locks (env s') = locks (env s)
  ∧ disk (env s') = disk (env s)
  ∧ noMkdir (env s') = noMkdir (env s)
  ∧ noWrite (env s') = noWrite (env s)
  ∧ written (env s') = written (env s)
  ∧ emitted (env s') = emitted (env s)
  ∧ dom (assets s) ⊆ dom (assets s').

(** ** The default [fileExtRegex]: [/\.\w{2,4}\.(?:map|gz)$|\.\w+$/i] *)

(** [\w] of an expression without the [u] flag: a letter of ASCII, a digit
    or the underscore. *)
Definition isWord (c : ascii) : bool :=
  let n := Ascii.N_of_ascii c in
  ((48 <=? n) && (n <=? 57) || (65 <=? n) && (n <=? 90)
   || (97 <=? n) && (n <=? 122) || (n =? 95))%N.

(** The longest run of [\w] at the head of a string, and what follows. *)
Fixpoint spanWord (s : string) : string * string :=
  match s with
  | String c rest =>
      if isWord c then
        let '(w, tail) := spanWord rest in (String c w, tail)
      else (EmptyString, s)
  | EmptyString => (EmptyString, EmptyString)
  end.

(** The case folding of the [i] flag, on ASCII. *)
Definition lowerChar (c : ascii) : ascii :=
  let n := Ascii.N_of_ascii c in
  if ((65 <=? n) && (n <=? 90))%N then Ascii.ascii_of_N (n + 32) else c.

Fixpoint lowerCase (s : string) : string :=
  match s with
  | String c rest => String (lowerChar c) (lowerCase rest)
  | EmptyString => EmptyString
  end.

(** Whether the expression matches at the head of [s].  Both alternatives
    begin with a dot and end at the end of the input, and [\w] takes no
    dot: the first asks for two to four [\w], a dot and [map] or [gz], the
    second for one [\w] or more. *)
Definition matchesHere (s : string) : bool :=
  match s with
  | String c rest =>
      Ascii.eqb c "."%char
      && let '(w, tail) := spanWord rest in
         ((2 <=? String.length w) && (String.length w <=? 4)
          && match tail with
             | String d e =>
                 Ascii.eqb d "."%char
                 && (String.eqb (lowerCase e) "map" || String.eqb (lowerCase e) "gz")
             | EmptyString => false
             end
          || negb (String.eqb w "") && String.eqb tail "")%nat
  | EmptyString => false
  end.

(** [filename.match(regex)[0]] for the default expression: the match at the
    leftmost position that has one, which runs to the end of the input. *)
Fixpoint defaultFileExtRegex (filename : string) : option string :=
  if matchesHere filename then Some filename
  else
    match filename with
    | String _ rest => defaultFileExtRegex rest
    | EmptyString => None
    end.

(** The defaults of [defaultOptions] for the options of [MoreOptions.t]. *)
Definition defaultMoreOptions : MoreOptions.t :=
  {| MoreOptions.fileExtRegex := Some defaultFileExtRegex;
     MoreOptions.output := "assets-manifest.json";
     MoreOptions.contextRelativeKeys := false;
     MoreOptions.entrypoints := false;
     MoreOptions.entrypointsKey := Some "entrypoints";
     MoreOptions.writeToDisk := WriteAuto;
     MoreOptions.integrityHashes := ["sha256"; "sha384"; "sha512"] |}.

(** The number of dots of a string. *)
Fixpoint countDots (s : string) : nat :=
  match s with
  | String c rest => (if Ascii.eqb c "."%char then 1 else 0) + countDots rest
  | EmptyString => 0
  end.

(** A run of [\w] only. *)
Fixpoint allWord (s : string) : bool :=
  match s with
  | String c rest => isWord c && allWord rest
  | EmptyString => true
  end.

(** What gathering the assets leaves alone between two instances: the
    options, the pattern of hot module replacement files, the counter,
    what surrounds the instance, the configuration of the store, and of
    the environment the lock files, the disk and what was written and
    emitted. *)
Definition steady (p p' : Plugin) : Prop :=
  moreOptions p' = moreOptions p
  ∧ hmrRegex p' = hmrRegex p
  ∧ compilationCounter p' = compilationCounter p
  ∧ devServer p' = devServer p
  ∧ compilerOutputPath p' = compilerOutputPath p
  ∧ config (state p') = config (state p)
  ∧ locks (env (state p')) = locks (env (state p))
  ∧ disk (env (state p')) = disk (env (state p))
  ∧ written (env (state p')) = written (env (state p))
  ∧ emitted (env (state p')) = emitted (env (state p)).

(** ** Instances for the examples of the whole instance *)

(** The constructor, for the whole instance: the options at their
    defaults, no pattern of hot module replacement files, the counter at
    zero, no dev server. *)
Definition newPlugin (s : State) : Plugin :=
  {| state := s;
     moreOptions := defaultMoreOptions;
     hmrRegex := None;
     compilationCounter := 0;
     devServer := false;
     compilerOutputPath := "/build" |}.

(** Stand-ins, in the examples, for the services of the instance: the
    files of a chunk given as a string or as an array of strings, the keys
    of the index in the order of the keys, a digest that shows its content,
    and path functions of which no example reads the result. *)
Definition filesOf (files : value) : list string :=
  match files with
  | VStr f => [f]
  | VArr xs => omap (λ x, match x with VStr f => Some f | _ => None end) xs
  | _ => []
  end.

Definition keysOf (names : gmap string string) (filename : string) : list string :=
  (List.filter (λ entry, String.eqb entry.2 filename) (map_to_list names)).*1.


Definition samePath (path : string) : string := path.

Definition secondPath (from to : string) : string := to.

(** A compilation of one chunk with one file. *)
Definition mainOutput : Output :=
  {| output_asset := {| asset_name := "main.1f3.js"; asset_info := ∅ |};
     output_source := "console.log(1)" |}.

Definition oneChunk : Compilation :=
  {| assetsByChunkName := [("main", VStr "main.1f3.js")];
     outputs := [mainOutput];
     compilation_entrypoints := [("main", ["main.1f3.js"])];
     compilation_outputPath := "/build";
     getPath := samePath |}.

(** What the loop over the assets leaves alone between two instances:
    what [steady] lists, the asset-name index and the merging flag; and no
    entry is lost. *)
Definition gathering (p p' : Plugin) : Prop :=
  steady p p'
  ∧ assetNames (state p') = assetNames (state p)
  ∧ isMerging (state p') = isMerging (state p)
  ∧ dom (assets (state p)) ⊆ dom (assets (state p')).
(** * Properties *)

(** ** Induction over nested values *)





(** ** deepmerge *)









(** ** Running methods *)

Lemma run_bind {A B} (m : M A) (k : A → M B) s :
  (m ≫= k) s =
    match m s with
    | (Normal a, s') => k a s'
    | (Throw e, s') => (Throw e, s')
    end.
Proof. reflexivity. Qed.

Lemma run_gets {A B} (f : State → A) (k : A → M B) s :
  (gets f ≫= k) s = k (f s) s.
Proof. reflexivity. Qed.

Lemma run_modify {B} (f : State → State) (k : unit → M B) s :
  (modify f ≫= k) s = k tt (f s).
Proof. reflexivity. Qed.

Lemma run_forOf_cons {A} (x : A) xs (body : A → M unit) s :
  forOf (x :: xs) body s =
    match body x s with
    | (Normal _, s') => forOf xs body s'
    | (Throw e, s') => (Throw e, s')
    end.
Proof. reflexivity. Qed.

Lemma run_forOf_app {A} (xs ys : list A) (body : A → M unit) s :
  forOf (xs ++ ys) body s =
    match forOf xs body s with
    | (Normal _, s') => forOf ys body s'
    | (Throw e, s') => (Throw e, s')
    end.
Proof.
  revert s. induction xs as [|x xs IH]; intros s; [done|].
  rewrite <- app_comm_cons, !run_forOf_cons.
  destruct (body x s) as [[[]|e] s']; [apply IH | done].
Qed.

(** ** The asset-name index across runs *)

Lemma handleBeforeRun_run s :
  handleBeforeRun s = (Normal tt, with_assetNames ∅ s).
Proof. reflexivity. Qed.

(** C9.  On an enabled plugin, [apply] taps [handleBeforeRun] on both
    run-start hooks of the compiler, [beforeRun] and [watchRun]; when either
    hook fires, in whatever state the instance is, the handler returns
    normally, the asset-name index is empty afterwards (no key of a previous
    run resolves any more) and the manifest entries, like everything else
    in the state, are as they were. *)
Theorem run_start_clears_asset_names (s s0 : State) :
  Options.enabled (options (config s)) = true →
  let hooks := apply {| beforeRun := []; watchRun := [] |} s in
  ∀ taps, taps = beforeRun hooks ∨ taps = watchRun hooks →
    (callHook taps s0).1 = Normal tt
    ∧ assetNames (callHook taps s0).2 = ∅
    ∧ (∀ key, assetNames (callHook taps s0).2 !! key = None)
    ∧ assets (callHook taps s0).2 = assets s0
    ∧ (callHook taps s0).2 = with_assetNames ∅ s0.
Proof.
  intros Henabled hooks taps Htaps.
  assert (taps = [handleBeforeRun]) as ->.
  { subst hooks. unfold apply in Htaps. rewrite Henabled in Htaps.
    by destruct Htaps as [->| ->]. }
  repeat split.
Qed.

(** ** Lookup *)

(** Normalizing a key twice is normalizing it once. *)
Lemma fixKey_idempotent key : fixKey (fixKey key) = fixKey key.
Proof.
  induction key as [|c key IH]; [done|]. simpl. rewrite IH. f_equal.
  destruct (Ascii.eqb c backslash) eqn:Hc; [done|]. by rewrite Hc.
Qed.

Lemma prop_lookup_None (o : gmap string value) key :
  o !! key = None → prop o key = VUndefined.
Proof. unfold prop. by intros ->. Qed.

Lemma prop_lookup_Some (o : gmap string value) key v :
  o !! key = Some v → prop o key = v.
Proof. unfold prop. by intros ->. Qed.

Lemma get_truthy_raw key d (a : gmap string value) v :
  a !! key = Some v → truthy v = true → get key d a = v.
Proof.
  intros Hk Hv. unfold get, js_or. rewrite (prop_lookup_Some _ _ _ Hk), Hv.
  by rewrite Hv.
Qed.

(** C7, as amended.  [get(key, defaultValue)] answers the first truthy value
    among what the entries hold under the raw key and under the normalized
    key, and the default when neither is truthy; so it answers the default
    whenever there is no entry under either form of the key, and it answers
    a truthy value stored under the raw key as it is stored. *)
Theorem get_first_truthy (key : string) (d : value) (a : gmap string value) :
  get key d a
    = default d (List.find truthy [prop a key; prop a (fixKey key)])
  ∧ (a !! key = None → a !! fixKey key = None → get key d a = d)
  ∧ (∀ v, a !! key = Some v → truthy v = true → get key d a = v).
Proof.
  split; [|split].
  - unfold get, js_or. simpl.
    destruct (truthy (prop a key)) eqn:H1; simpl.
    + by rewrite H1.
    + by destruct (truthy (prop a (fixKey key))).
  - intros H1 H2. unfold get, js_or.
    by rewrite (prop_lookup_None _ _ H1), (prop_lookup_None _ _ H2).
  - intros v. apply get_truthy_raw.
Qed.

Section Facts.

Variable url_resolve : string → string → string.
Variable varType : value → string.

Local Abbreviation getPublicPath := (getPublicPath url_resolve).
Local Abbreviation set := (set url_resolve varType).

(** ** The public path *)

Lemma getPublicPath_state filename s : (getPublicPath filename s).2 = s.
Proof.
  destruct filename; try reflexivity. unfold getPublicPath.
  rewrite run_gets.
  destruct (Options.publicPath (options (config s))) as [|[]| |f]; reflexivity.
Qed.


(** ** The customize pipeline *)

Lemma callCustomize_state fixedKey publicPath key v s :
  (callCustomize fixedKey publicPath key v s).2 = s.
Proof. reflexivity. Qed.

(** [set] outside the raw re-insertion of a merge: the entry of the
    customize waterfall decides. *)
Lemma set_run_customized key v s publicPath entry :
  isMerging s && negb (isCustomize (Options.merge (options (config s)))) = false →
  (getPublicPath v s).1 = Normal publicPath →
  (callCustomize (fixKey key) publicPath key v s).1 = Normal entry →
  set key v s =
    match entry with
    | VBool false => (Normal tt, s)
    | VObj e =>
        let value' := destructure e "value" publicPath in
        setRaw (toPropertyKey (destructure e "key" (VStr (fixKey key))))
          (if value_eqb value' publicPath && Options.integrity (options (config s)) then
             VObj {[ "src" := value';
                     "integrity" :=
                       lodash_get (this_object s)
                         ("currentAsset.info."
                            +:+ Options.integrityPropertyName (options (config s)))
                         (VStr "") ]}
           else value') s
    | _ =>
        (warn_once ("Unexpected customize() return type: " +:+ varType entry) ;;
         setRaw (fixKey key) publicPath) s
    end.
Proof.
  intros Hraw Hpp Hentry. unfold set.
  rewrite !run_gets, Hraw, run_bind.
  pose proof (getPublicPath_state v s) as Hs.
  destruct (getPublicPath v s) as [c s1]. simpl in Hpp, Hs. subst c s1.
  rewrite run_bind.
  pose proof (callCustomize_state (fixKey key) publicPath key v s) as Hs.
  destruct (callCustomize (fixKey key) publicPath key v s) as [c s1].
  simpl in Hentry, Hs. subst c s1.
  destruct entry as [| |[]| | | |e]; reflexivity.
Qed.

(** [set] while merging without ['customize']: the raw write. *)
Lemma set_run_raw key v s :
  isMerging s && negb (isCustomize (Options.merge (options (config s)))) = true →
  set key v s = setRaw key v s.
Proof. intros Hraw. unfold set. by rewrite !run_gets, Hraw. Qed.

Lemma warn_once_run message s :
  warn_once message s =
    (Normal tt,
     if bool_decide (message ∈ warnCache (env s)) then s
     else with_env (with_warning message (env s)) s).
Proof. reflexivity. Qed.

(** C3.  When [set(key, value)] runs the customize pipeline (it is not the
    raw re-insertion of a merge) and the waterfall answers something that
    is neither an object nor [false] nor [undefined], then [set] returns
    normally; the entries afterwards are the entries before with the
    normalized key mapped to the resolved public path, one entry written
    and every other key as it was; the warning reaches the console unless
    its message is already cached, and a console without repeated
    messages, all of them cached, stays so. *)
Theorem set_unexpected_customize_result
    (key : string) (v : value) (s : State) (publicPath entry : value) :
  isMerging s && negb (isCustomize (Options.merge (options (config s)))) = false →
  (getPublicPath v s).1 = Normal publicPath →
  (callCustomize (fixKey key) publicPath key v s).1 = Normal entry →
  isObject entry = false → entry ≠ VBool false → entry ≠ VUndefined →
  let message := "Unexpected customize() return type: " +:+ varType entry in
  let s' := (set key v s).2 in
  (set key v s).1 = Normal tt
  ∧ assets s' = <[fixKey key := publicPath]> (assets s)
  ∧ (∀ other, other ≠ fixKey key → assets s' !! other = assets s !! other)
  ∧ console (env s')
      = (if bool_decide (message ∈ warnCache (env s)) then console (env s)
         else (console (env s) ++ [message])%list)
  ∧ message ∈ warnCache (env s')
  ∧ ((∀ m, m ∈ console (env s) → m ∈ warnCache (env s)) →
     NoDup (console (env s)) →
     NoDup (console (env s')) ∧ ∀ m, m ∈ console (env s') → m ∈ warnCache (env s')).
Proof.
  intros Hraw Hpp Hentry Hobj Hfalse Hundef message s'.
  subst s'. rewrite (set_run_customized _ _ _ _ _ Hraw Hpp Hentry).
  assert ((match entry with
           | VBool false => (Normal tt, s)
           | VObj e => _
           | _ => (warn_once message ;; setRaw (fixKey key) publicPath) s
           end) = (warn_once message ;; setRaw (fixKey key) publicPath) s) as ->.
  { destruct entry as [| |[]| | | |e]; done. }
  rewrite run_bind, warn_once_run. unfold setRaw, modify.
  case_bool_decide as Hcached; simpl.
  - repeat split; try done.
    intros other Hne. by rewrite lookup_insert_ne.
  - repeat split; try done.
    + intros other Hne. by rewrite lookup_insert_ne.
    + set_solver.
    + apply NoDup_app. split; [done|]. split; [|apply NoDup_singleton].
      intros m Hm Hm'. apply list_elem_of_singleton in Hm'. subst m. auto.
    + intros m Hm. apply elem_of_app in Hm as [Hm|Hm%list_elem_of_singleton];
        set_solver.
Qed.

End Facts.

(** ** Property paths survive a merge *)






(** ** The merge loop on the entries *)

Lemma js_or_idem a d : js_or (js_or a a) d = js_or a d.
Proof. unfold js_or. by destruct (truthy a) eqn:Ha; rewrite ?Ha. Qed.

Lemma get_normalized key d (a : gmap string value) :
  fixKey key = key → get key d a = js_or (prop a key) d.
Proof. intros Hfix. unfold get. rewrite Hfix. apply js_or_idem. Qed.



Lemma has_own key (a : gmap string value) v : a !! key = Some v → has key a = true.
Proof.
  intros Hk. unfold has, lodash_has.
  rewrite (bool_decide_eq_true_2 (is_Some (a !! key))); [done | by eexists].
Qed.









Section MergeFacts.

Variable url_resolve : string → string → string.
Variable varType : value → string.

Local Abbreviation set := (set url_resolve varType).
Local Abbreviation mergeEntry := (mergeEntry url_resolve varType).
Local Abbreviation maybeMerge := (maybeMerge url_resolve varType).

(** ** [maybeMerge], run *)

Lemma with_assets_id s : with_assets (assets s) s = s.
Proof. by destruct s. Qed.



Lemma maybeMerge_run s :
  maybeMerge s =
    if mergeEnabled (Options.merge (options (config s))) then
      (Normal tt,
       with_isMerging false
         ((modify (with_isMerging true) ;;
           data ← readJSON (outputPath (config s));
           entries ← Object_entries data;
           forOf entries mergeEntry) s).2)
    else (Normal tt, s).
Proof.
  unfold maybeMerge. rewrite run_gets.
  destruct (mergeEnabled (Options.merge (options (config s)))); [|done].
  unfold tryCatchFinally.
  by destruct ((modify (with_isMerging true) ;; _) s).
Qed.

(** The handler is empty and the cleanup does not throw: [maybeMerge] ends
    normally. *)
Lemma maybeMerge_normal s : (maybeMerge s).1 = Normal tt.
Proof.
  rewrite maybeMerge_run.
  by destruct (mergeEnabled (Options.merge (options (config s)))).
Qed.

(** Nothing to read, or nothing [Object.entries] accepts: only the flag is
    written. *)
Lemma maybeMerge_run_unreadable s :
  mergeEnabled (Options.merge (options (config s))) = true →
  (∀ entries,
     disk (env s) !! outputPath (config s) ≠ Some (Json (DocEntries entries))) →
  maybeMerge s = (Normal tt, with_isMerging false s).
Proof.
  intros Henabled Hread. rewrite maybeMerge_run, Henabled.
  rewrite run_modify, run_bind. unfold readJSON. simpl.
  destruct (disk (env s) !! outputPath (config s)) as [[| |[|entries]]|] eqn:Hfile;
    try done.
  by destruct (Hread entries).
Qed.


(** C5.  [maybeMerge] never throws.  When the manifest on disk is
    missing, unreadable or not JSON (or is JSON [null], which
    [Object.entries] rejects), the entries, like the rest of the
    instance and its environment, are what they were before the call,
    the merging flag apart.  The merging flag is [false] after every call
    that finds [options.merge] set, however the call went, and after
    every call entered with the flag down. *)
Theorem maybeMerge_best_effort (s : State) :
  (maybeMerge s).1 = Normal tt
  ∧ (mergeEnabled (Options.merge (options (config s))) = true →
     isMerging (maybeMerge s).2 = false)
  ∧ (isMerging s = false → isMerging (maybeMerge s).2 = false)
  ∧ ((∀ entries,
        disk (env s) !! outputPath (config s) ≠ Some (Json (DocEntries entries))) →
     assets (maybeMerge s).2 = assets s
     ∧ assetNames (maybeMerge s).2 = assetNames s
     ∧ env (maybeMerge s).2 = env s
     ∧ ((maybeMerge s).2 = s ∨ (maybeMerge s).2 = with_isMerging false s)).
Proof.
  destruct (mergeEnabled (Options.merge (options (config s)))) eqn:Henabled.
  - split; [|split; [|split]].
    + by rewrite maybeMerge_run, Henabled.
    + by rewrite maybeMerge_run, Henabled.
    + by rewrite maybeMerge_run, Henabled.
    + intros Hread. rewrite (maybeMerge_run_unreadable s Henabled Hread).
      simpl. auto.
  - rewrite maybeMerge_run, Henabled. simpl.
    split; [done|]. split; [done|]. split; [done|]. intros _. auto.
Qed.



End MergeFacts.

(** ** The integrity of the current asset *)






Section IntegrityFacts.

Variable url_resolve : string → string → string.
Variable varType : value → string.

Local Abbreviation getPublicPath := (getPublicPath url_resolve).
Local Abbreviation set := (set url_resolve varType).


End IntegrityFacts.

Section PersistenceFacts.

Variable JSON_stringify : value → option string.

Local Abbreviation toString := (toString JSON_stringify).
Local Abbreviation writeTo := (writeTo JSON_stringify).

(** ** The lock around the write *)

Lemma toString_state s : (toString s).2 = s.
Proof.
  unfold toString, toJSON. rewrite run_bind, !run_gets.
  unfold lift. by destruct (callWaterfall _ _).
Qed.

(** [writeTo] on a destination whose lock is free: it returns normally
    with the locks as they were, or it throws and leaves the lock of the
    destination held. *)
Lemma writeTo_lock destination s :
  destination ∉ locks (env s) →
  match (writeTo destination s).1 with
  | Normal _ => locks (env (writeTo destination s).2) = locks (env s)
  | Throw _ => destination ∈ locks (env (writeTo destination s).2)
  end.
Proof.
  intros Hfree. unfold writeTo.
  rewrite run_bind. unfold lock. rewrite bool_decide_eq_false_2 by done.
  rewrite run_bind. unfold mkdir_for. simpl.
  case_bool_decide as Hmkdir; simpl; [set_solver|].
  rewrite run_bind.
  pose proof (toString_state
    (with_env (with_locks ({[destination]} ∪ locks (env s)) (env s)) s)) as Hstate.
  destruct (toString _) as [[text|e] s1]; simpl in Hstate; subst s1;
    simpl; [|set_solver].
  rewrite run_bind. unfold writeFile. simpl.
  case_bool_decide as Hwrite; simpl; [set_solver|].
  apply set_eq. intros p. rewrite elem_of_difference, elem_of_union, elem_of_singleton.
  split; [intros [[->|?] ?]; done|]. intros Hp. split; [by right|]. by intros ->.
Qed.

End PersistenceFacts.

Section EmitFacts.

Variable url_resolve : string → string → string.
Variable varType : value → string.
Variable JSON_stringify : value → option string.

Local Abbreviation getPublicPath := (getPublicPath url_resolve).
Local Abbreviation set := (set url_resolve varType).
Local Abbreviation mergeEntry := (mergeEntry url_resolve varType).
Local Abbreviation maybeMerge := (maybeMerge url_resolve varType).
Local Abbreviation toString := (toString JSON_stringify).
Local Abbreviation emitAssetsManifest :=
  (emitAssetsManifest url_resolve varType JSON_stringify).

(** ** The lock around the emit *)

(** Nothing a merge does touches the lock files. *)
Lemma set_locks key v s : locks (env (set key v s).2) = locks (env s).
Proof.
  unfold set. rewrite !run_gets.
  destruct (isMerging s && negb (isCustomize (Options.merge (options (config s)))));
    [done|].
  rewrite run_bind.
  pose proof (getPublicPath_state url_resolve v s) as Hs.
  destruct (getPublicPath v s) as [[publicPath|e] s1]; simpl in Hs; subst s1; [|done].
  rewrite run_bind.
  destruct (callCustomize (fixKey key) publicPath key v s) as [[entry|e] s1] eqn:Hc.
  2: { apply (f_equal snd) in Hc. simpl in Hc. by subst s1. }
  apply (f_equal snd) in Hc. simpl in Hc. subst s1.
  destruct entry as [| |[]| | | |e]; try done;
    rewrite run_bind, warn_once_run; simpl; by case_bool_decide.
Qed.

Lemma mergeEntry_locks entry s : locks (env (mergeEntry entry s).2) = locks (env s).
Proof.
  destruct entry as [key oldValue]. unfold mergeEntry. rewrite run_gets.
  destruct ((has key ∘ assets) s); [|apply set_locks].
  rewrite run_gets.
  destruct (isObject oldValue && isObject ((get key VUndefined ∘ assets) s));
    [apply set_locks | done].
Qed.

Lemma forOf_mergeEntry_locks entries : ∀ s,
  locks (env (forOf entries mergeEntry s).2) = locks (env s).
Proof.
  induction entries as [|e entries IH]; intros s; [done|].
  rewrite run_forOf_cons.
  pose proof (mergeEntry_locks e s) as He.
  destruct (mergeEntry e s) as [[[]|err] s1]; simpl in He; [|done].
  by rewrite IH.
Qed.

Lemma maybeMerge_locks s : locks (env (maybeMerge s).2) = locks (env s).
Proof.
  rewrite (maybeMerge_run url_resolve varType).
  destruct (mergeEnabled (Options.merge (options (config s)))); [|done].
  simpl. rewrite run_modify, run_bind. unfold readJSON. simpl.
  destruct (disk (env s) !! outputPath (config s)) as [[| |[|entries]]|]; try done.
  rewrite run_bind. simpl. by rewrite forOf_mergeEntry_locks.
Qed.

(** [emitAssetsManifest] with merge on and the lock of the output free: it
    returns normally with the locks as they were, or it throws and leaves
    the lock of the output held. *)
Lemma emitAssetsManifest_lock output s :
  mergeEnabled (Options.merge (options (config s))) = true →
  output ∉ locks (env s) →
  match (emitAssetsManifest output s).1 with
  | Normal _ => locks (env (emitAssetsManifest output s).2) = locks (env s)
  | Throw _ => output ∈ locks (env (emitAssetsManifest output s).2)
  end.
Proof.
  intros Henabled Hfree. unfold emitAssetsManifest.
  rewrite run_gets, Henabled. simpl.
  rewrite run_bind. unfold lockSync, lock. rewrite bool_decide_eq_false_2 by done.
  rewrite run_bind.
  pose proof (maybeMerge_normal url_resolve varType
    (with_env (with_locks ({[output]} ∪ locks (env s)) (env s)) s)) as Hnormal.
  pose proof (maybeMerge_locks
    (with_env (with_locks ({[output]} ∪ locks (env s)) (env s)) s)) as Hlocks.
  destruct (maybeMerge _) as [c s1]. simpl in Hnormal, Hlocks. subst c.
  rewrite run_bind.
  pose proof (toString_state JSON_stringify s1) as Hstate.
  destruct (toString s1) as [[text|e] s2]; simpl in Hstate; subst s2; simpl.
  - rewrite Hlocks. clear -Hfree.
    apply set_eq. intros p.
    rewrite elem_of_difference, elem_of_union, elem_of_singleton.
    split; [intros [[->|?] ?]; done|]. intros Hp. split; [by right|]. by intros ->.
  - rewrite Hlocks. clear. apply elem_of_union_l, elem_of_singleton. done.
Qed.

End EmitFacts.

(** ** The entries across [apply] *)

(** When [options.assets] is still the object the constructor was given,
    [apply] leaves the entries as they are. *)
Lemma apply_same_object stage p (h h1 : gmap nat (gmap string value)) r a :
  stage (AfterOptions.options_assets p) h = (r, h1) →
  AfterOptions.this_assets p = r →
  h1 !! r = Some a →
  AfterOptions.entries (AfterOptions.apply stage p h).1 (AfterOptions.apply stage p h).2 = a.
Proof.
  intros Hstage Hthis Ha. unfold AfterOptions.apply, AfterOptions.entries.
  rewrite Hstage, Hthis. simpl. unfold AfterOptions.assignFrom.
  rewrite Ha, lookup_insert_eq, lookup_insert_eq. simpl.
  by rewrite !map_union_idemp.
Qed.

(** When a stage tapped on [hooks.options] answers another object, the
    entries after [apply] are those of both objects, and the entries of the
    manifest as it was before [apply] overwrite those of [options.assets]. *)
Lemma apply_other_object stage p (h h1 : gmap nat (gmap string value)) r early seed :
  stage (AfterOptions.options_assets p) h = (r, h1) →
  AfterOptions.this_assets p ≠ r →
  h1 !! AfterOptions.this_assets p = Some early →
  h1 !! r = Some seed →
  AfterOptions.entries (AfterOptions.apply stage p h).1 (AfterOptions.apply stage p h).2
    = early ∪ seed.
Proof.
  intros Hstage Hne Hearly Hseed. unfold AfterOptions.apply, AfterOptions.entries.
  rewrite Hstage. simpl. unfold AfterOptions.assignFrom.
  rewrite Hseed, Hearly, lookup_insert_eq, lookup_insert_eq. simpl.
  apply map_eq. intros k. rewrite !lookup_union.
  destruct (early !! k), (seed !! k); done.
Qed.

(** C10, at the input on which the code departs from it.  An entry
    ["app.js": "early.js"] is added with [setRaw] before [apply]; a stage
    tapped on [hooks.options] answers options whose [assets] is another
    object holding ["app.js": "seed.js"].  After [apply] the manifest holds
    ["early.js"] under ["app.js"], not the value of [options.assets]. *)
Theorem apply_prefers_early_entry :
  let after := AfterOptions.apply AfterOptions.seededOptions
                 (AfterOptions.construct 0) AfterOptions.earlyEntry in
  AfterOptions.entries (AfterOptions.construct 0) AfterOptions.earlyEntry !! "app.js"
    = Some (VStr "early.js")
  ∧ AfterOptions.seedEntries !! "app.js" = Some (VStr "seed.js")
  ∧ AfterOptions.entries after.1 after.2 !! "app.js" = Some (VStr "early.js").
Proof. repeat split; vm_compute; reflexivity. Qed.

(** ** The claims at concrete inputs *)

(** The scenario of the spec: [{"a.js": {"size": 10}}] on disk merged into
    [{"a.js": {"hash": "x"}}]. *)
Example merge_size_and_hash :
  assets (maybeMerge joinPath typeName sizeAndHash).2
    = {[ "a.js" := VObj {[ "size" := VNum 10; "hash" := VStr "x" ]} ]}.
Proof. vm_compute. reflexivity. Qed.

(** [has] follows lodash.has: a key with dots that names no entry is read
    as a path into the entries. *)
Example has_follows_dotted_path :
  has "main.js" {[ "main" := VObj {[ "js" := VStr "main.1f3.js" ]} ]} = true
  ∧ has "main.css" {[ "main" := VObj {[ "js" := VStr "main.1f3.js" ]} ]} = false.
Proof. split; vm_compute; reflexivity. Qed.

(** A stage that throws on the second entry of a merge with ['customize']:
    the first entry stays merged, nothing is thrown, the flag is down. *)
Example maybeMerge_partial_failure :
  (maybeMerge joinPath typeName failingSecondEntry).1 = Normal tt
  ∧ assets (maybeMerge joinPath typeName failingSecondEntry).2
      = {[ "a.js" := VStr "a.1f3.js" ]}
  ∧ isMerging (maybeMerge joinPath typeName failingSecondEntry).2 = false.
Proof. repeat split; vm_compute; reflexivity. Qed.



(** C7 as stated fails on an entry whose value is falsy: there is an entry
    under the key, and [get] answers the default instead of it. *)
Lemma get_skips_falsy_entry :
  ({[ "app.js" := VStr "" ]} : gmap string value) !! "app.js" = Some (VStr "")
  ∧ get "app.js" (VStr "fallback") {[ "app.js" := VStr "" ]} = VStr "fallback".
Proof. split; vm_compute; reflexivity. Qed.

Lemma get_first_truthy_witness :
  get "missing.js" (VStr "fallback") {[ "app.js" := VStr "app.1f3.js" ]}
    = VStr "fallback"
  ∧ get "app.js" (VStr "fallback") {[ "app.js" := VStr "app.1f3.js" ]}
    = VStr "app.1f3.js".
Proof.
  split.
  - apply (proj1 (proj2 (get_first_truthy "missing.js" (VStr "fallback")
                           {[ "app.js" := VStr "app.1f3.js" ]}))); reflexivity.
  - apply (proj2 (proj2 (get_first_truthy "app.js" (VStr "fallback")
                           {[ "app.js" := VStr "app.1f3.js" ]}))); reflexivity.
Defined.



Lemma maybeMerge_best_effort_witness :
  (maybeMerge joinPath typeName malformedOnDisk).1 = Normal tt
  ∧ isMerging (maybeMerge joinPath typeName malformedOnDisk).2 = false
  ∧ assets (maybeMerge joinPath typeName malformedOnDisk).2
      = assets malformedOnDisk.
Proof.
  pose proof (maybeMerge_best_effort joinPath typeName malformedOnDisk)
    as (Hnormal & Hflag & _ & Hnoop).
  split; [exact Hnormal|]. split; [apply Hflag; reflexivity|].
  apply Hnoop. intros entries Hfile. vm_compute in Hfile. discriminate Hfile.
Defined.

Lemma set_unexpected_customize_result_witness :
  assets (set joinPath typeName backslashKey (VStr "out.js") numericCustomize).2
    = <[ fixKey backslashKey := VStr "out.js" ]> (assets numericCustomize)
  ∧ console (env (set joinPath typeName backslashKey (VStr "out.js") numericCustomize).2)
    = ["Unexpected customize() return type: Number"].
Proof.
  pose proof (set_unexpected_customize_result joinPath typeName
                backslashKey (VStr "out.js") numericCustomize (VStr "out.js") (VNum 7)
                eq_refl eq_refl eq_refl eq_refl) as H.
  destruct H as (_ & Hassets & _ & Hconsole & _); [discriminate..|].
  split; [exact Hassets | exact Hconsole].
Defined.


Lemma run_start_clears_asset_names_witness :
  let manifest := newManifest defaultOptions ∅ ∅ in
  let running := with_assetNames {[ "main.js" := "main.1f3.js" ]}
                   (with_assets {[ "main.js" := VStr "main.1f3.js" ]} manifest) in
  let hooks := apply {| beforeRun := []; watchRun := [] |} manifest in
  assetNames (callHook (watchRun hooks) running).2 = ∅
  ∧ assets (callHook (watchRun hooks) running).2 = {[ "main.js" := VStr "main.1f3.js" ]}.
Proof.
  intros manifest running hooks.
  pose proof (run_start_clears_asset_names manifest running eq_refl
                (watchRun hooks) (or_intror eq_refl)) as (_ & Hnames & _ & Hassets & _).
  split; [exact Hnames | exact Hassets].
Defined.

(** With the default property name, [set] stores the digest recorded on the
    current asset. *)
Example set_records_integrity :
  let asset := {| asset_name := "foo.abc123.js";
                  asset_info := {[ "integrity" := VStr "sha256-AbC" ]} |} in
  let manifest := withCurrentAsset asset
                    (newManifest (withIntegrity "integrity" defaultOptions) ∅ ∅) in
  assets (set joinPath typeName "foo.js" (VStr "foo.abc123.js") manifest).2
    = {[ "foo.js" := VObj {[ "src" := VStr "foo.abc123.js";
                             "integrity" := VStr "sha256-AbC" ]} ]}.
Proof. vm_compute. reflexivity. Qed.

(** C4, at an input on which the code departs from it.  Integrity is on,
    the configured property name is ["sri.hash"], and the info of the
    current asset records the digest ["sha256-AbC"] under that name, where
    [recordSubresourceIntegrity] writes it.  No customize stage is tapped,
    so the entry keeps the resolved public path.  [set] stores
    [{ src, integrity: "" }]: it reads the digest along the path
    [info.sri.hash], not under the name. *)
Theorem set_misses_dotted_integrity :
  Options.integrity (options (config dottedIntegrity)) = true
  ∧ currentAsset dottedIntegrity = Some dottedAsset
  ∧ asset_info dottedAsset
      !! Options.integrityPropertyName (options (config dottedIntegrity))
      = Some (VStr "sha256-AbC")
  ∧ assets (set joinPath typeName "foo.js" (VStr "foo.abc123.js") dottedIntegrity).2
      !! "foo.js"
      = Some (VObj {[ "src" := VStr "foo.abc123.js"; "integrity" := VStr "" ]}).
Proof. repeat split; vm_compute; reflexivity. Qed.

(** When nothing fails, [writeTo] releases the lock it took. *)
Example writeTo_releases_lock :
  (writeTo noText manifestPath (newManifest defaultOptions ∅ ∅)).1 = Normal tt
  ∧ locks (env (writeTo noText manifestPath (newManifest defaultOptions ∅ ∅)).2) = ∅.
Proof. split; vm_compute; reflexivity. Qed.

(** C2, at inputs on which the code departs from it.  [writeTo] on a
    destination that cannot be written throws the error of [writeFile] and
    leaves the lock of the destination held; [emitAssetsManifest] with merge
    on and a transform stage that throws propagates the error and leaves the
    lock of the output held.  Neither method releases the lock when a
    protected operation fails. *)
Theorem failed_persistence_keeps_lock :
  (writeTo noText manifestPath readOnlyDisk).1 = Throw "writeFile"
  ∧ manifestPath ∈ locks (env (writeTo noText manifestPath readOnlyDisk).2)
  ∧ (emitAssetsManifest joinPath typeName noText "assets-manifest.json"
       throwingTransform).1 = Throw "transform"
  ∧ "assets-manifest.json"
      ∈ locks (env (emitAssetsManifest joinPath typeName noText "assets-manifest.json"
                      throwingTransform).2).
Proof. repeat split; vm_compute; reflexivity. Qed.

(** * Further properties of the store *)

(** ** Keys *)

Lemma fixKey_length key : String.length (fixKey key) = String.length key.
Proof. induction key as [|c key IH]; [done|]. simpl. by rewrite IH. Qed.

Lemma fixKey_no_backslash key : backslash ∉ String.list_ascii_of_string (fixKey key).
Proof.
  induction key as [|c key IH]; simpl; [apply not_elem_of_nil|].
  apply not_elem_of_cons. split; [|done].
  destruct (Ascii.eqb c backslash) eqn:Hc; [done|].
  intros <-. by rewrite Ascii.eqb_refl in Hc.
Qed.

Lemma fixKey_fixed key :
  fixKey key = key ↔ (backslash ∉ String.list_ascii_of_string key).
Proof.
  split.
  - intros <-. apply fixKey_no_backslash.
  - induction key as [|c key IH]; [done|]. simpl.
    intros [Hc Hkey]%not_elem_of_cons. rewrite IH by done.
    destruct (Ascii.eqb c backslash) eqn:Heq; [|done].
    apply Ascii.eqb_eq in Heq. by subst c.
Qed.

(** X1.  [fixKey] computes a normal form: its result has the length of the
    key and holds no backslash, a key is left as it is exactly when it
    holds no backslash, and normalizing twice is normalizing once. *)
Theorem fixKey_normal_form (key : string) :
  String.length (fixKey key) = String.length key
  ∧ (backslash ∉ String.list_ascii_of_string (fixKey key))
  ∧ (fixKey key = key ↔ (backslash ∉ String.list_ascii_of_string key))
  ∧ fixKey (fixKey key) = fixKey key.
Proof.
  split; [apply fixKey_length|]. split; [apply fixKey_no_backslash|].
  split; [apply fixKey_fixed|]. apply fixKey_fixed, fixKey_no_backslash.
Qed.

(** ** Writing and reading back *)

Lemma lodash_has_own (a : gmap string value) key v :
  a !! key = Some v → lodash_has a key = true.
Proof.
  intros Hk. unfold lodash_has.
  rewrite (bool_decide_eq_true_2 (is_Some (a !! key))); [done | by eexists].
Qed.

Lemma js_or_falsy a b : truthy a = false → js_or a b = b.
Proof. unfold js_or. by intros ->. Qed.

Lemma js_or_truthy a b : truthy a = true → js_or a b = a.
Proof. unfold js_or. by intros ->. Qed.

(** X2.  After [setRaw(key, value)] the entry is there, whatever the value:
    [has(key)] holds, and [get(key)] answers the value when it is truthy.
    A falsy value is stored all the same, but [get] then passes it over:
    under a normalized key it answers the default.  [get] of a key that is
    not [key], raw or normalized, answers what it did before. *)
Theorem setRaw_then_read (key : string) (v d : value) (s : State) :
  let after := assets (setRaw key v s).2 in
  (setRaw key v s).1 = Normal tt
  ∧ after !! key = Some v
  ∧ has key after = true
  ∧ (truthy v = true → get key d after = v)
  ∧ (truthy v = false → fixKey key = key → get key d after = d)
  ∧ (∀ other, other ≠ key → fixKey other ≠ key →
       get other d after = get other d (assets s)).
Proof.
  simpl. split; [done|]. split; [apply lookup_insert_eq|].
  split; [eapply has_own, lookup_insert_eq|].
  split; [|split].
  - intros Hv. eapply get_truthy_raw; [apply lookup_insert_eq | done].
  - intros Hv Hfix. rewrite get_normalized by done. unfold prop.
    rewrite lookup_insert_eq. simpl. by apply js_or_falsy.
  - intros other Hne Hfix. unfold get, prop.
    by rewrite !lookup_insert_ne.
Qed.

(** ** Deleting *)

Lemma delete_run key s :
  Manifest.delete key s =
    if lodash_has (assets s) key then
      (Normal true, with_assets (base.delete key (assets s)) s)
    else if lodash_has (assets s) (fixKey key) then
      (Normal true, with_assets (base.delete (fixKey key) (assets s)) s)
    else (Normal false, s).
Proof.
  unfold Manifest.delete. rewrite run_gets.
  destruct (lodash_has (assets s) key); [done|].
  by destruct (lodash_has (assets s) (fixKey key)).
Qed.

Lemma lodash_has_false_lookup (a : gmap string value) key :
  lodash_has a key = false → a !! key = None.
Proof.
  unfold lodash_has. case_bool_decide as Hown; [done|].
  intros _. by apply eq_None_not_Some.
Qed.

(** X3.  [delete(key)] answers whether [has(key)] held.  It removes the
    entry under the raw key when lodash finds the raw key, and otherwise
    the entry under the normalized key; so an entry under the raw key is
    gone afterwards while its normalized twin, if there is one, stays, and
    no entry under a third key is ever touched.  When it answers [false]
    the state is what it was; in every case only the entries change. *)
Theorem delete_outcome (key : string) (s : State) :
  let r := Manifest.delete key s in
  r.1 = Normal (has key (assets s))
  ∧ (has key (assets s) = false → r.2 = s)
  ∧ (∀ other, other ≠ key → other ≠ fixKey key →
       assets r.2 !! other = assets s !! other)
  ∧ (is_Some (assets s !! key) →
       assets r.2 !! key = None
       ∧ (fixKey key ≠ key → assets r.2 !! fixKey key = assets s !! fixKey key))
  ∧ (lodash_has (assets s) key = false → assets r.2 !! fixKey key = None)
  ∧ dom (assets r.2) ⊆ dom (assets s)
  ∧ r.2 = with_assets (assets r.2) s.
Proof.
  simpl. rewrite delete_run. unfold has.
  destruct (lodash_has (assets s) key) eqn:Hraw; simpl.
  - split; [done|]. split; [done|]. split.
    { intros other Hne _. by rewrite lookup_delete_ne. }
    split.
    { intros _. split; [apply lookup_delete_eq|].
      intros Hne. by rewrite lookup_delete_ne. }
    split; [done|]. split; [|done].
    rewrite dom_delete. by apply subseteq_difference_l.
  - pose proof (lodash_has_false_lookup _ _ Hraw) as Hnone.
    destruct (lodash_has (assets s) (fixKey key)) eqn:Hfixed; simpl.
    + split; [done|]. split; [done|]. split.
      { intros other _ Hne. by rewrite lookup_delete_ne. }
      split; [rewrite Hnone; by intros [? ?]|].
      split; [intros _; apply lookup_delete_eq|]. split; [|done].
      rewrite dom_delete. by apply subseteq_difference_l.
    + split; [done|]. split; [done|]. split; [done|].
      split; [rewrite Hnone; by intros [? ?]|].
      split; [intros _; by apply lodash_has_false_lookup|].
      split; [done|]. by rewrite with_assets_id.
Qed.



Section StoreFacts.

Variable url_resolve : string → string → string.
Variable varType : value → string.

Local Abbreviation getPublicPath := (getPublicPath url_resolve).
Local Abbreviation set := (set url_resolve varType).
Local Abbreviation getProxy := (getProxy url_resolve varType).

(** ** What [set] can do *)

(** The ways a call of [set] can end. *)
Lemma set_cases key v s :
  (∃ e, set key v s = (Throw e, s))
  ∨ set key v s = (Normal tt, s)
  ∨ (∃ k w, set key v s = (Normal tt, with_assets (<[k := w]> (assets s)) s))
  ∨ (∃ k w m,
       set key v s
         = (Normal tt,
            with_assets (<[k := w]> (assets s))
              (with_env (with_warning m (env s)) s))).
Proof.
  destruct (isMerging s && negb (isCustomize (Options.merge (options (config s)))))
    eqn:Hraw.
  { right. right. left. exists key, v. by rewrite set_run_raw. }
  pose proof (getPublicPath_state url_resolve v s) as Hs.
  destruct (getPublicPath v s) as [[publicPath|e] s1] eqn:Hpp; simpl in Hs; subst s1.
  2: { left. exists e. unfold set. by rewrite !run_gets, Hraw, run_bind, Hpp. }
  destruct (callCustomize (fixKey key) publicPath key v s) as [[entry|e] s1] eqn:Hc.
  2: { left. exists e. unfold set. rewrite !run_gets, Hraw, run_bind, Hpp, run_bind, Hc.
       apply (f_equal snd) in Hc. simpl in Hc. by subst s1. }
  rewrite (set_run_customized url_resolve varType key v s publicPath entry);
    [|done|by rewrite Hpp|by rewrite Hc].
  remember (warn_once ("Unexpected customize() return type: " +:+ varType entry) ;;
            setRaw (fixKey key) publicPath) as warned eqn:Hwarned.
  assert (warned s = (Normal tt, s)
          ∨ (∃ k w, warned s = (Normal tt, with_assets (<[k := w]> (assets s)) s))
          ∨ (∃ k w m,
               warned s
                 = (Normal tt,
                    with_assets (<[k := w]> (assets s))
                      (with_env (with_warning m (env s)) s)))) as Hwarn.
  { subst warned. rewrite run_bind, warn_once_run. unfold setRaw, modify.
    case_bool_decide; simpl; right; [left|right]; by repeat eexists. }
  destruct entry as [| |[]| | | |e]; try (right; exact Hwarn).
  - by right; left.
  - right. right. left. by eexists _, _.
Qed.

(** X5.  A call of [set] writes at most one entry and at most one warning,
    and nothing else: the configuration, the asset-name index, the current
    asset, the merging flag, the lock files, the disk and what was written
    or emitted are as before.  When [set] throws (a customize stage or the
    public-path function threw) the whole state is as before. *)
Theorem set_footprint (key : string) (v : value) (s : State) :
  let r := set key v s in
  (∀ e, r.1 = Throw e → r.2 = s)
  ∧ (assets r.2 = assets s ∨ ∃ k w, assets r.2 = <[k := w]> (assets s))
  ∧ (console (env r.2) = console (env s)
     ∨ ∃ m, console (env r.2) = (console (env s) ++ [m])%list)
  ∧ config r.2 = config s
  ∧ assetNames r.2 = assetNames s
  ∧ currentAsset r.2 = currentAsset s
  ∧ isMerging r.2 = isMerging s
  ∧ locks (env r.2) = locks (env s)
  ∧ disk (env r.2) = disk (env s)
  ∧ written (env r.2) = written (env s)
  ∧ emitted (env r.2) = emitted (env s).
Proof.
  simpl.
  destruct (set_cases key v s) as [[e ->]|[->|[(k & w & ->)|(k & w & m & ->)]]];
    simpl.
  all: repeat split; auto; try discriminate; try (right; by repeat eexists).
Qed.

Lemma destructure_present (e : gmap string value) name v d :
  e !! name = Some v → v ≠ VUndefined → destructure e name d = v.
Proof.
  intros Hname Hv. unfold destructure, prop. rewrite Hname. simpl.
  by destruct v.
Qed.

Lemma destructure_default (e : gmap string value) name d :
  e !! name = Some d → destructure e name d = d.
Proof.
  intros Hname. unfold destructure, prop. rewrite Hname. simpl. by destruct d.
Qed.

(** With no customize stage and integrity off, [set] writes the resolved
    public path under the normalized key. *)
Lemma set_plain key v s publicPath :
  isMerging s && negb (isCustomize (Options.merge (options (config s)))) = false →
  customize (config s) = [] →
  Options.integrity (options (config s)) = false →
  (getPublicPath v s).1 = Normal publicPath →
  set key v s = setRaw (fixKey key) publicPath s.
Proof.
  intros Hraw Htaps Hintegrity Hpp.
  rewrite (set_run_customized url_resolve varType key v s publicPath
             (VObj {[ "key" := VStr (fixKey key); "value" := publicPath ]}));
    [|done|done|].
  2: { unfold callCustomize. rewrite !run_gets, Htaps. reflexivity. }
  cbn zeta. rewrite Hintegrity, andb_false_r.
  rewrite (destructure_present _ "key" (VStr (fixKey key))); [|done|done].
  by rewrite destructure_default.
Qed.

(** X6.  On a manifest with no customize stage and integrity off, outside
    the raw re-insertion of a merge, [set(key, value)] stores the resolved
    public path under the normalized key.  Afterwards [has] holds for the
    key as given, and [get] answers the stored path, when it is truthy,
    for the normalized key, and for the key as given unless the key has a
    backslash and an older entry sits under that raw spelling. *)
Theorem set_then_read (key : string) (v d publicPath : value) (s : State) :
  isMerging s && negb (isCustomize (Options.merge (options (config s)))) = false →
  customize (config s) = [] →
  Options.integrity (options (config s)) = false →
  (getPublicPath v s).1 = Normal publicPath →
  let after := assets (set key v s).2 in
  (set key v s).1 = Normal tt
  ∧ after = <[fixKey key := publicPath]> (assets s)
  ∧ has key after = true
  ∧ (truthy publicPath = true →
       get (fixKey key) d after = publicPath
       ∧ (fixKey key = key ∨ assets s !! key = None → get key d after = publicPath)).
Proof.
  intros Hraw Htaps Hintegrity Hpp. simpl.
  rewrite (set_plain key v s publicPath) by done. simpl.
  split; [done|]. split; [done|]. split.
  { unfold has. apply orb_true_iff. right.
    eapply lodash_has_own, lookup_insert_eq. }
  intros Htruthy. split.
  - eapply get_truthy_raw; [apply lookup_insert_eq | done].
  - intros [Hfix|Hnone].
    + rewrite Hfix. eapply get_truthy_raw; [apply lookup_insert_eq | done].
    + destruct (decide (fixKey key = key)) as [Hfix|Hne].
      * rewrite Hfix. eapply get_truthy_raw; [apply lookup_insert_eq | done].
      * unfold get, prop. rewrite lookup_insert_ne, Hnone by done. simpl.
        rewrite (js_or_falsy VUndefined) by done.
        rewrite lookup_insert_eq. simpl. by apply js_or_truthy.
Qed.

(** ** The proxy *)

Lemma proxy_set_run (raw : bool) property v s :
  Handler.set (getProxy raw) property v s
    = match (if raw then setRaw property v s else set property v s) with
      | (Normal _, s') => (Normal (has property (assets s')), s')
      | (Throw e, s') => (Throw e, s')
      end.
Proof. destruct raw; reflexivity. Qed.

(** X7.  An assignment through the proxy answers [has(property)] as it is
    after the write.  Through the raw proxy it always answers [true].
    Through the customizing proxy it answers [true] whenever no customize
    stage is tapped and the public path resolves, also for a property with
    backslashes; it answers [false], with the state unchanged, when the
    customize chain vetoes the entry ([false]) and the manifest did not
    have the property. *)
Theorem proxy_set_answer (property : string) (v : value) (s : State) :
  (Handler.set (getProxy true) property v s).1 = Normal true
  ∧ (∀ publicPath,
       customize (config s) = [] →
       (getPublicPath v s).1 = Normal publicPath →
       (Handler.set (getProxy false) property v s).1 = Normal true)
  ∧ (∀ publicPath,
       isMerging s && negb (isCustomize (Options.merge (options (config s)))) = false →
       (getPublicPath v s).1 = Normal publicPath →
       (callCustomize (fixKey property) publicPath property v s).1
         = Normal (VBool false) →
       has property (assets s) = false →
       Handler.set (getProxy false) property v s = (Normal false, s)).
Proof.
  split; [|split].
  - rewrite proxy_set_run. simpl. do 2 f_equal. eapply has_own, lookup_insert_eq.
  - intros publicPath Htaps Hpp. rewrite proxy_set_run.
    destruct (isMerging s && negb (isCustomize (Options.merge (options (config s)))))
      eqn:Hraw.
    { rewrite set_run_raw by done. simpl.
      do 2 f_equal. eapply has_own, lookup_insert_eq. }
    rewrite (set_run_customized url_resolve varType property v s publicPath
               (VObj {[ "key" := VStr (fixKey property); "value" := publicPath ]}));
      [|done|done|].
    2: { unfold callCustomize. rewrite !run_gets, Htaps. reflexivity. }
    cbn zeta.
    rewrite (destructure_present _ "key" (VStr (fixKey property))); [|done|done].
    unfold setRaw, modify. simpl. do 2 f_equal.
    unfold has. apply orb_true_iff. right.
    eapply lodash_has_own, lookup_insert_eq.
  - intros publicPath Hraw Hpp Hveto Hhas. rewrite proxy_set_run.
    rewrite (set_run_customized url_resolve varType property v s publicPath
               (VBool false)) by done.
    by rewrite Hhas.
Qed.

End StoreFacts.

(** * Further properties of merging and persisting *)

Lemma keeps_refl s : keeps s s.
Proof. by repeat split. Qed.

Lemma keeps_trans s1 s2 s3 : keeps s1 s2 → keeps s2 s3 → keeps s1 s3.
Proof.
  intros (?&?&?&?&?&?&?&?&?&?) (?&?&?&?&?&?&?&?&?&?).
  repeat split; try congruence. by etrans.
Qed.

Lemma keeps_isMerging b s s' : keeps s s' → keeps s (with_isMerging b s').
Proof. by intros (?&?&?&?&?&?&?&?&?&?). Qed.

Section MergeFrame.

Variable url_resolve : string → string → string.
Variable varType : value → string.

Local Abbreviation set := (set url_resolve varType).
Local Abbreviation mergeEntry := (mergeEntry url_resolve varType).
Local Abbreviation maybeMerge := (maybeMerge url_resolve varType).

Lemma set_keeps key v s : keeps s (set key v s).2.
Proof.
  destruct (set_cases url_resolve varType key v s)
    as [[e ->]|[->|[(k & w & ->)|(k & w & m & ->)]]];
    simpl; repeat split; try done;
    try (unfold with_assets; simpl; rewrite dom_insert; apply union_subseteq_r).
Qed.

Lemma mergeEntry_keeps entry s : keeps s (mergeEntry entry s).2.
Proof.
  destruct entry as [key oldValue]. unfold mergeEntry. rewrite run_gets.
  destruct ((has key ∘ assets) s); [|apply set_keeps].
  rewrite run_gets.
  destruct (isObject oldValue && isObject ((get key VUndefined ∘ assets) s));
    [apply set_keeps | apply keeps_refl].
Qed.

Lemma forOf_mergeEntry_keeps entries : ∀ s,
  keeps s (forOf entries mergeEntry s).2.
Proof.
  induction entries as [|e entries IH]; intros s; [apply keeps_refl|].
  rewrite run_forOf_cons.
  pose proof (mergeEntry_keeps e s) as He.
  destruct (mergeEntry e s) as [[[]|err] s1]; simpl in He; [|done].
  eapply keeps_trans; [exact He | apply IH].
Qed.

Lemma maybeMerge_frame s : keeps s (maybeMerge s).2.
Proof.
  rewrite (maybeMerge_run url_resolve varType).
  destruct (mergeEnabled (Options.merge (options (config s)))); [|apply keeps_refl].
  simpl. rewrite run_modify, run_bind. unfold readJSON. simpl.
  apply keeps_isMerging.
  destruct (disk (env s) !! outputPath (config s)) as [[| |[|entries]]|];
    try (apply keeps_isMerging, keeps_refl).
  rewrite run_bind. simpl.
  eapply keeps_trans; [apply (keeps_isMerging true), keeps_refl|].
  apply forOf_mergeEntry_keeps.
Qed.

(** X8.  Whatever [options.merge] is and however the merge goes, also when
    a customize stage throws halfway, [maybeMerge] loses no entry: every
    key of the manifest before the call is a key after it.  It leaves the
    configuration, the asset-name index and the current asset alone, takes
    and releases no lock, and neither changes the disk nor writes or emits
    anything. *)
Theorem maybeMerge_keeps (s : State) :
  dom (assets s) ⊆ dom (assets (maybeMerge s).2)
  ∧ config (maybeMerge s).2 = config s
  ∧ assetNames (maybeMerge s).2 = assetNames s
  ∧ currentAsset (maybeMerge s).2 = currentAsset s
  ∧ locks (env (maybeMerge s).2) = locks (env s)
  ∧ disk (env (maybeMerge s).2) = disk (env s)
  ∧ written (env (maybeMerge s).2) = written (env s)
  ∧ emitted (env (maybeMerge s).2) = emitted (env s).
Proof.
  by destruct (maybeMerge_frame s) as (?&?&?&?&?&?&?&?&?&?).
Qed.


Section Persisting.

Variable JSON_stringify : value → option string.

Local Abbreviation toString := (toString JSON_stringify).
Local Abbreviation writeTo := (writeTo JSON_stringify).
Local Abbreviation emitAssetsManifest :=
  (emitAssetsManifest url_resolve varType JSON_stringify).

Lemma toString_reads s s' :
  config s' = config s → assets s' = assets s → (toString s').1 = (toString s).1.
Proof.
  intros Hconfig Hassets. unfold toString, toJSON.
  rewrite (run_bind _ _ s'), (run_bind _ _ s), !run_gets, Hconfig, Hassets.
  unfold lift.
  by destruct (callWaterfall _ _).
Qed.

(** What [writeTo] does and leaves alone. *)
Lemma writeTo_effects (destination : string) (s : State) :
  config (writeTo destination s).2 = config s
  ∧ assets (writeTo destination s).2 = assets s
  ∧ assetNames (writeTo destination s).2 = assetNames s
  ∧ emitted (env (writeTo destination s).2) = emitted (env s)
  ∧ match (writeTo destination s).1 with
    | Normal _ =>
        (destination ∉ locks (env s))
        ∧ (∃ text,
             (toString s).1 = Normal text
             ∧ written (env (writeTo destination s).2)
                 = (written (env s) ++ [(destination, text)])%list)
        ∧ locks (env (writeTo destination s).2) = locks (env s)
    | Throw _ => written (env (writeTo destination s).2) = written (env s)
    end.
Proof.
  unfold writeTo. rewrite run_bind. unfold lock.
  case_bool_decide as Hheld; [done|].
  rewrite run_bind. unfold mkdir_for. simpl.
  case_bool_decide as Hmkdir; [done|].
  rewrite run_bind.
  set (held := with_env (with_locks ({[destination]} ∪ locks (env s)) (env s)) s).
  pose proof (toString_state JSON_stringify held) as Hstate.
  pose proof (toString_reads s held eq_refl eq_refl) as Hreads.
  destruct (toString held) as [[text|e] s1]; simpl in Hstate, Hreads; subst s1; [|done].
  rewrite run_bind. unfold writeFile. simpl.
  case_bool_decide as Hwrite; [done|].
  simpl. repeat split; try done.
  - by exists text.
  - apply set_eq. intros x. rewrite elem_of_difference, elem_of_union, !elem_of_singleton.
    split; [by intros [[->|?] ?]|]. intros Hx. split; [by right|]. by intros ->.
Qed.

(** X10.  [writeTo] never changes the manifest, and it writes at most one
    file: when it returns normally the lock of the destination was free,
    the serialization of the manifest has been written under the
    destination, after everything written before, and the locks are as
    they were; when it throws nothing has been written. *)
Theorem writeTo_outcome (destination : string) (s : State) :
  config (writeTo destination s).2 = config s
  ∧ assets (writeTo destination s).2 = assets s
  ∧ assetNames (writeTo destination s).2 = assetNames s
  ∧ emitted (env (writeTo destination s).2) = emitted (env s)
  ∧ match (writeTo destination s).1 with
    | Normal _ =>
        (destination ∉ locks (env s))
        ∧ (∃ text,
             (toString s).1 = Normal text
             ∧ written (env (writeTo destination s).2)
                 = (written (env s) ++ [(destination, text)])%list)
        ∧ locks (env (writeTo destination s).2) = locks (env s)
    | Throw _ => written (env (writeTo destination s).2) = written (env s)
    end.
Proof. exact (writeTo_effects destination s). Qed.

(** What [emitAssetsManifest] does and leaves alone. *)
Lemma emitAssetsManifest_effects (output : string) (s : State) :
  dom (assets s) ⊆ dom (assets (emitAssetsManifest output s).2)
  ∧ written (env (emitAssetsManifest output s).2) = written (env s)
  ∧ disk (env (emitAssetsManifest output s).2) = disk (env s)
  ∧ match (emitAssetsManifest output s).1 with
    | Normal _ =>
        (∃ text,
           (toString (emitAssetsManifest output s).2).1 = Normal text
           ∧ emitted (env (emitAssetsManifest output s).2)
               = (emitted (env s) ++ [(output, text)])%list)
        ∧ locks (env (emitAssetsManifest output s).2) = locks (env s)
    | Throw _ => emitted (env (emitAssetsManifest output s).2) = emitted (env s)
    end.
Proof.
  unfold emitAssetsManifest. rewrite run_gets.
  assert (∀ s0 : State,
    assets s0 = assets s ∧ disk (env s0) = disk (env s)
    ∧ written (env s0) = written (env s) ∧ emitted (env s0) = emitted (env s) →
    (mergeEnabled (Options.merge (options (config s))) = true →
     (output ∉ locks (env s)) ∧ locks (env s0) = {[output]} ∪ locks (env s)) →
    (mergeEnabled (Options.merge (options (config s))) = false →
     locks (env s0) = locks (env s)) →
    let r := (maybeMerge ;;
              text ← toString;
              emitAsset output text ;;
              when (mergeEnabled (Options.merge (options (config s))))
                (unlockSync output)) s0 in
    dom (assets s) ⊆ dom (assets r.2)
    ∧ written (env r.2) = written (env s)
    ∧ disk (env r.2) = disk (env s)
    ∧ match r.1 with
      | Normal _ =>
          (∃ text, (toString r.2).1 = Normal text
                   ∧ emitted (env r.2) = (emitted (env s) ++ [(output, text)])%list)
          ∧ locks (env r.2) = locks (env s)
      | Throw _ => emitted (env r.2) = emitted (env s)
      end) as Hrest.
  { intros s0 (Hassets0&Hdisk0&Hwritten0&Hemitted0) Hon Hoff r. subst r.
    rewrite run_bind.
    pose proof (maybeMerge_normal url_resolve varType s0) as Hnormal.
    pose proof (maybeMerge_frame s0) as (_&_&_&Hlocks&Hdisk&_&_&Hwritten&Hemitted&Hdom).
    destruct (maybeMerge s0) as [c s1].
    simpl in Hnormal, Hlocks, Hdisk, Hwritten, Hemitted, Hdom. subst c.
    rewrite Hassets0 in Hdom. rewrite Hdisk0 in Hdisk. rewrite Hwritten0 in Hwritten.
    rewrite Hemitted0 in Hemitted.
    rewrite run_bind.
    pose proof (toString_state JSON_stringify s1) as Hstate.
    destruct (toString s1) as [[text|e] s2] eqn:Htext; simpl in Hstate; subst s2;
      [|done].
    rewrite run_bind. unfold emitAsset. simpl.
    destruct (mergeEnabled (Options.merge (options (config s)))) eqn:Henabled; simpl.
    - destruct (Hon eq_refl) as [Hfree Hheld].
      repeat split; try done.
      + exists text. split; [|by rewrite Hemitted].
        erewrite toString_reads; [by rewrite Htext|done|done].
      + rewrite Hlocks, Hheld. apply set_eq. intros x.
        rewrite elem_of_difference, elem_of_union, !elem_of_singleton.
        split; [by intros [[->|?] ?]|]. intros Hx. split; [by right|]. by intros ->.
    - repeat split; try done.
      + exists text. split; [|by rewrite Hemitted].
        erewrite toString_reads; [by rewrite Htext|done|done].
      + rewrite Hlocks. by apply Hoff. }
  destruct (mergeEnabled (Options.merge (options (config s)))) eqn:Henabled; simpl.
  - rewrite run_bind. unfold lockSync, lock.
    case_bool_decide as Hheld; [done|].
    apply Hrest; [by repeat split|done|done].
  - apply (Hrest s); [by repeat split|done|done].
Qed.

(** X11.  [emitAssetsManifest] emits at most one asset: when it returns
    normally the manifest's serialization as it stands after the call
    (after the merge, if any) has been emitted under the output, after
    everything emitted before, and the locks are as they were; when it
    throws nothing has been emitted.  It never loses an entry and never
    writes to the disk. *)
Theorem emitAssetsManifest_outcome (output : string) (s : State) :
  dom (assets s) ⊆ dom (assets (emitAssetsManifest output s).2)
  ∧ written (env (emitAssetsManifest output s).2) = written (env s)
  ∧ disk (env (emitAssetsManifest output s).2) = disk (env s)
  ∧ match (emitAssetsManifest output s).1 with
    | Normal _ =>
        (∃ text,
           (toString (emitAssetsManifest output s).2).1 = Normal text
           ∧ emitted (env (emitAssetsManifest output s).2)
               = (emitted (env s) ++ [(output, text)])%list)
        ∧ locks (env (emitAssetsManifest output s).2) = locks (env s)
    | Throw _ => emitted (env (emitAssetsManifest output s).2) = emitted (env s)
    end.
Proof. exact (emitAssetsManifest_effects output s). Qed.

End Persisting.

End MergeFrame.

(** * The instance beyond the store *)

Lemma runP_bind {A B} (m : P A) (k : A → P B) p :
  (m ≫= k) p =
    match m p with
    | (Normal a, p') => k a p'
    | (Throw e, p') => (Throw e, p')
    end.
Proof. reflexivity. Qed.

Lemma runP_gets {A B} (f : Plugin → A) (k : A → P B) p :
  (getsP f ≫= k) p = k (f p) p.
Proof. reflexivity. Qed.

Lemma runP_modify {B} (f : Plugin → Plugin) (k : unit → P B) p :
  (modifyP f ≫= k) p = k tt (f p).
Proof. reflexivity. Qed.

Lemma runP_forOf_cons {A} (x : A) xs (body : A → P unit) p :
  forOfP (x :: xs) body p =
    match body x p with
    | (Normal _, p') => forOfP xs body p'
    | (Throw e, p') => (Throw e, p')
    end.
Proof. reflexivity. Qed.

Lemma runP_onState {A} (m : M A) p :
  onState m p = ((m (state p)).1, with_state (m (state p)).2 p).
Proof. unfold onState. by destruct (m (state p)). Qed.

(** [filename.split(/[?#]/)[0]] of a name followed by a query or a hash. *)
Lemma beforeQueryOrHash_app (f : string) (sep : ascii) (q : string) :
  (∀ c, c ∈ String.list_ascii_of_string f → c ≠ "?"%char ∧ c ≠ "#"%char) →
  sep = "?"%char ∨ sep = "#"%char →
  beforeQueryOrHash (f +:+ String sep q) = f.
Proof.
  intros Hf Hsep. induction f as [|c f IH]; simpl.
  - by destruct Hsep as [-> | ->].
  - destruct (Hf c) as [Hq Hh]; [by left|].
    apply Ascii.eqb_neq in Hq, Hh. rewrite Hq, Hh. simpl. f_equal.
    apply IH. intros c' Hc'. apply Hf. by right.
Qed.

Lemma beforeQueryOrHash_id (f : string) :
  (∀ c, c ∈ String.list_ascii_of_string f → c ≠ "?"%char ∧ c ≠ "#"%char) →
  beforeQueryOrHash f = f.
Proof.
  intros Hf. induction f as [|c f IH]; simpl; [done|].
  destruct (Hf c) as [Hq Hh]; [by left|].
  apply Ascii.eqb_neq in Hq, Hh. rewrite Hq, Hh. simpl. f_equal.
  apply IH. intros c' Hc'. apply Hf. by right.
Qed.

(** ** The default [fileExtRegex] *)

Lemma countDots_app (a b : string) :
  countDots (a +:+ b) = (countDots a + countDots b)%nat.
Proof. induction a as [|c a IH]; simpl; [done|]. rewrite IH. lia. Qed.

Lemma isWord_not_dot (c : ascii) : isWord c = true → Ascii.eqb c "."%char = false.
Proof. destruct c as [[] [] [] [] [] [] [] []]; by vm_compute. Qed.

Lemma lowerChar_dot (c : ascii) :
  Ascii.eqb (lowerChar c) "."%char = Ascii.eqb c "."%char.
Proof. destruct c as [[] [] [] [] [] [] [] []]; by vm_compute. Qed.

Lemma countDots_lowerCase (s : string) : countDots (lowerCase s) = countDots s.
Proof. induction s as [|c s IH]; simpl; [done|]. by rewrite lowerChar_dot, IH. Qed.

Lemma allWord_countDots (w : string) : allWord w = true → countDots w = 0%nat.
Proof.
  induction w as [|c w IH]; simpl; [done|].
  intros [Hc Hw]%andb_prop. by rewrite (isWord_not_dot c Hc), IH.
Qed.

Lemma spanWord_spec (s : string) :
  s = (spanWord s).1 +:+ (spanWord s).2 ∧ allWord (spanWord s).1 = true.
Proof.
  induction s as [|c s [IH1 IH2]]; simpl; [done|].
  destruct (isWord c) eqn:Hc; [|done].
  destruct (spanWord s) as [w tail]. simpl in *. rewrite Hc. split; [|done].
  by subst s.
Qed.

Lemma spanWord_app_dot (w tail : string) :
  allWord w = true →
  spanWord (w +:+ String "."%char tail) = (w, String "."%char tail).
Proof.
  induction w as [|c w IH]; simpl; [done|].
  intros [Hc Hw]%andb_prop. by rewrite Hc, IH.
Qed.

(** A match begins with a dot, has one [\w] at least after it, and holds
    one more dot at most. *)
Lemma matchesHere_shape (s : string) :
  matchesHere s = true →
  ∃ rest, s = String "."%char rest ∧ rest ≠ "" ∧ (countDots rest ≤ 1)%nat.
Proof.
  destruct s as [|c rest]; simpl; [done|].
  intros [Hc Hrest]%andb_prop. apply Ascii.eqb_eq in Hc as ->.
  exists rest. split; [done|].
  destruct (spanWord_spec rest) as [Happ Hword].
  destruct (spanWord rest) as [w tail]. simpl in Happ, Hword.
  apply allWord_countDots in Hword.
  apply orb_prop in Hrest as [[[Hmin Hmax]%andb_prop Htail]%andb_prop
                             |[Hw Htail]%andb_prop].
  - destruct tail as [|d e]; [done|].
    apply andb_prop in Htail as [Hd He]. apply Ascii.eqb_eq in Hd as ->.
    split; [subst rest; by destruct w|].
    assert (countDots e = 0%nat) as He0.
    { rewrite <-countDots_lowerCase.
      by apply orb_prop in He as [->%String.eqb_eq| ->%String.eqb_eq]. }
    subst rest. rewrite countDots_app. simpl. lia.
  - apply String.eqb_eq in Htail as ->.
    split; [subst rest; by destruct w|].
    subst rest. rewrite countDots_app. simpl. lia.
Qed.

(** X12.  The default [fileExtRegex] takes a double extension whole: on a
    name that ends in a dot, two to four letters, digits or underscores, a
    dot and [map] or [gz] in any case, the match is that ending, whatever
    comes before it. *)
Theorem defaultFileExtRegex_double (base w e : string) :
  allWord w = true →
  (2 ≤ String.length w ≤ 4)%nat →
  lowerCase e = "map" ∨ lowerCase e = "gz" →
  defaultFileExtRegex (base +:+ "." +:+ w +:+ "." +:+ e)
    = Some ("." +:+ w +:+ "." +:+ e).
Proof.
  intros Hw [Hmin Hmax] He.
  change ("." +:+ w +:+ "." +:+ e) with (String "."%char (w +:+ String "."%char e)).
  assert (matchesHere (String "."%char (w +:+ String "."%char e)) = true) as Hmatch.
  { unfold matchesHere. rewrite (spanWord_app_dot w e Hw).
    apply Nat.leb_le in Hmin as ->. apply Nat.leb_le in Hmax as ->.
    by destruct He as [-> | ->]. }
  assert (countDots (String "."%char (w +:+ String "."%char e)) = 2%nat) as Hdots.
  { simpl. rewrite countDots_app, (allWord_countDots w Hw). simpl.
    rewrite <-countDots_lowerCase. by destruct He as [-> | ->]. }
  induction base as [|c base IH].
  - change ("" +:+ String "."%char (w +:+ String "."%char e))
      with (String "."%char (w +:+ String "."%char e)).
    cbn [defaultFileExtRegex]. by rewrite Hmatch.
  - change (String c base +:+ String "."%char (w +:+ String "."%char e))
      with (String c (base +:+ String "."%char (w +:+ String "."%char e))).
    cbn [defaultFileExtRegex].
    destruct (matchesHere (String c (base +:+ String "."%char (w +:+ String "."%char e))))
      eqn:Hhere; [|exact IH].
    apply matchesHere_shape in Hhere as (rest & [= -> <-] & _ & Hle).
    rewrite countDots_app, Hdots in Hle. lia.
Qed.

Lemma defaultFileExtRegex_Some (f e : string) :
  defaultFileExtRegex f = Some e → ∃ base, f = base +:+ e ∧ matchesHere e = true.
Proof.
  induction f as [|c f IH]; cbn [defaultFileExtRegex].
  - destruct (matchesHere EmptyString) eqn:Hhere; [|done].
    intros [= <-]. by exists EmptyString.
  - destruct (matchesHere (String c f)) eqn:Hhere.
    + intros [= <-]. by exists EmptyString.
    + intros (base & -> & He)%IH. by exists (String c base).
Qed.

Section InstanceFacts.

Variable url_resolve : string → string → string.
Variable varType : value → string.
Variable JSON_stringify : value → option string.
Variable maybeArrayWrap : value → list string.
Variable findMapKeysByValue : gmap string string → string → list string.
Variable getSRIHash : list string → string → string.
Variable path_extname : string → string.
Variable path_basename : string → string.
Variable path_relative : string → string → string.
Variable toLowerCase : string → string.

Local Abbreviation toString := (toString JSON_stringify).
Local Abbreviation writeTo := (writeTo JSON_stringify).
Local Abbreviation getExtension := (getExtension path_extname).
Local Abbreviation shouldWriteToDisk := (shouldWriteToDisk path_relative).
Local Abbreviation handleAfterEmit := (handleAfterEmit JSON_stringify path_relative).
Local Abbreviation recordSubresourceIntegrity :=
  (recordSubresourceIntegrity getSRIHash).
Local Abbreviation setForAsset := (setForAsset url_resolve varType).
Local Abbreviation keysFor := (keysFor findMapKeysByValue path_basename).
Local Abbreviation emitManifest :=
  (emitManifest url_resolve varType JSON_stringify path_basename path_relative).
Local Abbreviation getEntrypointFilesGroupedByExtension :=
  (getEntrypointFilesGroupedByExtension findMapKeysByValue path_extname toLowerCase).
Local Abbreviation getPublicPath := (getPublicPath url_resolve).
Local Abbreviation groupFilesByExtension :=
  (groupFilesByExtension findMapKeysByValue path_extname toLowerCase).
Local Abbreviation handleAfterProcessAssets :=
  (handleAfterProcessAssets url_resolve varType JSON_stringify maybeArrayWrap
     findMapKeysByValue path_extname path_basename path_relative toLowerCase).
Local Abbreviation processAssetsByChunkName :=
  (processAssetsByChunkName maybeArrayWrap path_extname).

(** The index after the files of one chunk, and after all chunks, in
    closed form. *)
Local Abbreviation indexFiles p chunkName :=
  (foldl (λ (names : gmap string string) filename,
            <[chunkName +:+ getExtension filename p := filename]> names)).
Local Abbreviation indexChunks p :=
  (foldl (λ (names : gmap string string) '(chunkName, files),
            indexFiles p chunkName names
              (List.filter (λ f, negb (isHMR f p)) (maybeArrayWrap files)))).


(** X14.  With [options.writeToDisk] left at ['auto'] and no dev server
    around, [handleAfterEmit] does nothing, wherever the manifest is to
    go. *)
Theorem handleAfterEmit_auto_plain_build (c : Compilation) (p : Plugin) :
  MoreOptions.writeToDisk (moreOptions p) = WriteAuto →
  devServer p = false →
  handleAfterEmit c p = (Normal tt, p).
Proof.
  intros Hauto Hplain. unfold handleAfterEmit. rewrite runP_gets.
  unfold shouldWriteToDisk, inDevServer. by rewrite Hauto, Hplain.
Qed.

(** X15.  [getExtension] looks at nothing after the first [?] or [#]: a
    non-empty name free of both has the extension it has with any query or
    hash appended. *)
Theorem getExtension_ignores_query (f : string) (sep : ascii) (q : string) (p : Plugin) :
  f ≠ "" →
  (∀ c, c ∈ String.list_ascii_of_string f → c ≠ "?"%char ∧ c ≠ "#"%char) →
  sep = "?"%char ∨ sep = "#"%char →
  getExtension (f +:+ String sep q) p = getExtension f p.
Proof.
  intros Hne Hf Hsep. unfold getExtension.
  rewrite beforeQueryOrHash_app, beforeQueryOrHash_id by done.
  by destruct f as [|c f].
Qed.

(** X16.  With the default [fileExtRegex], the extension [getExtension]
    answers is empty, or it is an ending of the name before its query or
    hash: a dot, one character at least after it, and one more dot at
    most.  A name without a dot before its query or hash has the empty
    extension. *)
Theorem getExtension_default_shape (f : string) (p : Plugin) :
  MoreOptions.fileExtRegex (moreOptions p) = Some defaultFileExtRegex →
  (getExtension f p = ""
   ∨ ∃ base rest,
       beforeQueryOrHash f = base +:+ getExtension f p
       ∧ getExtension f p = String "."%char rest
       ∧ rest ≠ ""
       ∧ (countDots rest ≤ 1)%nat)
  ∧ (countDots (beforeQueryOrHash f) = 0%nat → getExtension f p = "").
Proof.
  intros Hregex. unfold getExtension. rewrite Hregex.
  destruct (String.eqb f ""); [by split; [left|]|].
  destruct (defaultFileExtRegex (beforeQueryOrHash f)) as [e|] eqn:Hmatch; simpl;
    [|by split; [left|]].
  apply defaultFileExtRegex_Some in Hmatch as (base & Hbase & Hhere).
  apply matchesHere_shape in Hhere as (rest & -> & Hrest & Hdots).
  split; [right; by exists base, rest|].
  rewrite Hbase, countDots_app. simpl. lia.
Qed.

Lemma indexFiles_run p chunkName filenames : ∀ names,
  forOfP filenames (λ filename,
      ext ← getsP (getExtension filename);
      recordName (chunkName +:+ ext) filename)
    (with_state (with_assetNames names (state p)) p)
  = (Normal tt,
     with_state (with_assetNames (indexFiles p chunkName names filenames) (state p)) p).
Proof.
  induction filenames as [|f filenames IH]; intros names; [done|].
  rewrite runP_forOf_cons, runP_gets. unfold recordName, modifyP.
  exact (IH (<[chunkName +:+ getExtension f p := f]> names)).
Qed.

Lemma indexChunks_run p chunks : ∀ names,
  forOfP chunks (λ '(chunkName, files),
      hot ← getsP (λ p f, isHMR f p);
      forOfP (List.filter (λ f, negb (hot f)) (maybeArrayWrap files)) (λ filename,
        ext ← getsP (getExtension filename);
        recordName (chunkName +:+ ext) filename))
    (with_state (with_assetNames names (state p)) p)
  = (Normal tt,
     with_state (with_assetNames (indexChunks p names chunks) (state p)) p).
Proof.
  induction chunks as [|[chunkName files] chunks IH]; intros names; [done|].
  rewrite runP_forOf_cons, runP_gets.
  change (λ f, negb (isHMR f (with_state (with_assetNames names (state p)) p)))
    with (λ f, negb (isHMR f p)).
  rewrite indexFiles_run. apply IH.
Qed.

Lemma processAssetsByChunkName_run chunks p :
  processAssetsByChunkName chunks p
  = (Normal (indexChunks p (assetNames (state p)) chunks),
     with_state (with_assetNames (indexChunks p (assetNames (state p)) chunks)
                   (state p)) p).
Proof.
  unfold processAssetsByChunkName. rewrite runP_bind.
  replace p with (with_state (with_assetNames (assetNames (state p)) (state p)) p)
    at 1 by (by destruct p as [[] ? ? ? ? ?]).
  by rewrite indexChunks_run.
Qed.

Lemma indexFiles_spec p chunkName filenames : ∀ names,
  dom names ⊆ dom (indexFiles p chunkName names filenames)
  ∧ (∀ key file,
       indexFiles p chunkName names filenames !! key = Some file →
       names !! key = Some file
       ∨ (file ∈ filenames ∧ key = chunkName +:+ getExtension file p))
  ∧ (∀ file, file ∈ filenames →
       is_Some (indexFiles p chunkName names filenames
                  !! (chunkName +:+ getExtension file p))).
Proof.
  induction filenames as [|f filenames IH]; intros names; simpl.
  - split; [done|]. split; [by left|]. by intros file ?%elem_of_nil.
  - destruct (IH (<[chunkName +:+ getExtension f p := f]> names))
      as (Hdom & Hfrom & Hall).
    split; [|split].
    + etrans; [|exact Hdom]. rewrite dom_insert. apply union_subseteq_r.
    + intros key file [Hold|[Hin ->]]%Hfrom.
      * destruct (decide (key = chunkName +:+ getExtension f p)) as [->|Hne].
        -- rewrite lookup_insert_eq in Hold. injection Hold as <-.
           right. split; [by left|done].
        -- rewrite lookup_insert_ne in Hold by done. by left.
      * right. split; [by right|done].
    + intros file [->|Hin]%elem_of_cons; [|by apply Hall].
      apply elem_of_dom, Hdom. rewrite dom_insert.
      apply elem_of_union_l, elem_of_singleton. done.
Qed.

Lemma indexChunks_spec p chunks : ∀ names,
  dom names ⊆ dom (indexChunks p names chunks)
  ∧ (∀ key file,
       indexChunks p names chunks !! key = Some file →
       names !! key = Some file
       ∨ (isHMR file p = false
          ∧ ∃ chunkName files,
              (chunkName, files) ∈ chunks
              ∧ file ∈ maybeArrayWrap files
              ∧ key = chunkName +:+ getExtension file p))
  ∧ (∀ chunkName files file,
       (chunkName, files) ∈ chunks →
       file ∈ maybeArrayWrap files →
       isHMR file p = false →
       is_Some (indexChunks p names chunks !! (chunkName +:+ getExtension file p))).
Proof.
  induction chunks as [|[chunkName files] chunks IH]; intros names; simpl.
  - split; [done|]. split; [by left|]. by intros ??? ?%elem_of_nil.
  - destruct (indexFiles_spec p chunkName
                (List.filter (λ f, negb (isHMR f p)) (maybeArrayWrap files)) names)
      as (Hdom1 & Hfrom1 & Hall1).
    destruct (IH (indexFiles p chunkName names
                    (List.filter (λ f, negb (isHMR f p)) (maybeArrayWrap files))))
      as (Hdom & Hfrom & Hall).
    split; [|split].
    + by etrans.
    + intros key file [Hold|(Hcold & c & fs & Hin & Hfile & ->)]%Hfrom.
      * apply Hfrom1 in Hold as [Hold|[Hin ->]]; [by left|].
        apply list_elem_of_In, List.filter_In in Hin as [Hin Hcold].
        right. split; [by apply negb_true_iff|].
        exists chunkName, files. split; [by left|]. split; [|done].
        by apply list_elem_of_In.
      * right. split; [done|]. exists c, fs. split; [by right|done].
    + intros c fs file [[= -> ->]|Hin]%elem_of_cons Hfile Hcold; [|by eapply Hall].
      apply elem_of_dom, Hdom, elem_of_dom, Hall1.
      apply list_elem_of_In, List.filter_In. split; [by apply list_elem_of_In|].
      by apply negb_true_iff.
Qed.

(** X17.  [processAssetsByChunkName] returns the asset-name index and
    changes nothing else.  It drops no name from the index; every name it
    adds or replaces is a file of one of the chunks that is no hot module
    replacement file, under the name of the chunk followed by the
    extension of the file; and every such file leaves an entry under that
    key. *)
Theorem processAssetsByChunkName_index (chunks : list (string * value)) (p : Plugin) :
  (processAssetsByChunkName chunks p).1
    = Normal (assetNames (state (processAssetsByChunkName chunks p).2))
  ∧ (processAssetsByChunkName chunks p).2
      = with_state
          (with_assetNames (assetNames (state (processAssetsByChunkName chunks p).2))
             (state p)) p
  ∧ dom (assetNames (state p))
      ⊆ dom (assetNames (state (processAssetsByChunkName chunks p).2))
  ∧ (∀ key file,
       assetNames (state (processAssetsByChunkName chunks p).2) !! key = Some file →
       assetNames (state p) !! key = Some file
       ∨ (isHMR file p = false
          ∧ ∃ chunkName files,
              (chunkName, files) ∈ chunks
              ∧ file ∈ maybeArrayWrap files
              ∧ key = chunkName +:+ getExtension file p))
  ∧ (∀ chunkName files file,
       (chunkName, files) ∈ chunks →
       file ∈ maybeArrayWrap files →
       isHMR file p = false →
       is_Some (assetNames (state (processAssetsByChunkName chunks p).2)
                  !! (chunkName +:+ getExtension file p))).
Proof.
  rewrite processAssetsByChunkName_run. simpl.
  split; [done|]. split; [done|]. apply indexChunks_spec.
Qed.

(** X18.  [recordSubresourceIntegrity] is idempotent: a second pass over
    the same compilation changes nothing.  Position by position it keeps
    the name and the content of an asset and every property of its info
    other than [integrityPropertyName]; under that name it keeps a truthy
    value and puts the digest of the content in the place of any other. *)
Theorem recordSubresourceIntegrity_once (c : Compilation) (p : Plugin) :
  recordSubresourceIntegrity (recordSubresourceIntegrity c p) p
    = recordSubresourceIntegrity c p
  ∧ ∀ i o,
      outputs c !! i = Some o →
      ∃ o',
        outputs (recordSubresourceIntegrity c p) !! i = Some o'
        ∧ asset_name (output_asset o') = asset_name (output_asset o)
        ∧ output_source o' = output_source o
        ∧ (∀ key,
             key ≠ Options.integrityPropertyName (options (config (state p))) →
             asset_info (output_asset o') !! key = asset_info (output_asset o) !! key)
        ∧ prop (asset_info (output_asset o'))
            (Options.integrityPropertyName (options (config (state p))))
          = if truthy (prop (asset_info (output_asset o))
                         (Options.integrityPropertyName (options (config (state p)))))
            then prop (asset_info (output_asset o))
                   (Options.integrityPropertyName (options (config (state p))))
            else VStr (getSRIHash (MoreOptions.integrityHashes (moreOptions p))
                         (output_source o)).
Proof.
  split.
  - unfold recordSubresourceIntegrity. simpl. f_equal.
    rewrite <-list_fmap_compose. apply list_fmap_ext. intros _ o _. simpl.
    destruct (truthy (prop (asset_info (output_asset o)) _)) eqn:Hkept;
      [by rewrite Hkept|].
    simpl. unfold prop at 1. rewrite lookup_insert_eq. simpl.
    destruct (negb _); [done|]. by rewrite insert_insert_eq.
  - intros i o Ho. unfold recordSubresourceIntegrity. simpl.
    rewrite list_lookup_fmap, Ho. simpl. eexists. split; [done|].
    destruct (truthy (prop (asset_info (output_asset o)) _)) eqn:Hkept; simpl;
      [done|].
    repeat split; [|by unfold prop; rewrite lookup_insert_eq].
    intros key Hkey. by rewrite lookup_insert_ne.
Qed.

(** ** Gathering the assets *)

Lemma steady_refl p : steady p p.
Proof. by repeat split. Qed.

Lemma steady_trans p1 p2 p3 : steady p1 p2 → steady p2 p3 → steady p1 p3.
Proof.
  intros (?&?&?&?&?&?&?&?&?&?) (?&?&?&?&?&?&?&?&?&?). repeat split; congruence.
Qed.

Lemma steady_forOfP {A} (body : A → P unit) xs :
  (∀ x p, steady p (body x p).2) → ∀ p, steady p (forOfP xs body p).2.
Proof.
  intros Hbody. induction xs as [|x xs IH]; intros p; [apply steady_refl|].
  rewrite runP_forOf_cons. pose proof (Hbody x p) as Hx.
  destruct (body x p) as [[[]|e] p1]; simpl in Hx; [|done].
  eapply steady_trans; [exact Hx | apply IH].
Qed.

Lemma steady_onState_keeps {A} (m : M A) p :
  keeps (state p) (m (state p)).2 → steady p (onState m p).2.
Proof.
  intros (?&?&?&?&?&?&?&?&?&?). rewrite runP_onState. simpl. by repeat split.
Qed.

Lemma steady_setRaw key v p : steady p (onState (setRaw key v) p).2.
Proof. by repeat split. Qed.

Lemma steady_setForAsset asset key p : steady p (setForAsset asset key p).2.
Proof.
  unfold setForAsset. rewrite runP_bind, runP_onState. simpl.
  rewrite runP_bind.
  pose proof (steady_onState_keeps
    (set url_resolve varType key (VStr (asset_name asset)))
    (with_state (with_currentAsset (Some asset) (state p)) p)
    (set_keeps url_resolve varType key _ _)) as Hset.
  destruct (onState _ _) as [[[]|e] p1]; simpl in Hset.
  - rewrite runP_onState. simpl.
    destruct Hset as (?&?&?&?&?&?&?&?&?&?). by repeat split.
  - destruct Hset as (?&?&?&?&?&?&?&?&?&?). by repeat split.
Qed.

(** What [handleAfterProcessAssets] does and leaves alone. *)
Lemma handleAfterProcessAssets_effects (c : Compilation) (p : Plugin) :
  written (env (state (handleAfterProcessAssets c p).2)) = written (env (state p))
  ∧ (compilationCounter p ≠ 1%Z →
     emitted (env (state (handleAfterProcessAssets c p).2))
       = emitted (env (state p)))
  ∧ match (handleAfterProcessAssets c p).1 with
    | Normal _ =>
        compilationCounter (handleAfterProcessAssets c p).2
          = (compilationCounter p - 1)%Z
        ∧ locks (env (state (handleAfterProcessAssets c p).2))
            = locks (env (state p))
        ∧ (compilationCounter p = 1%Z →
           ∃ text,
             (toString (state (handleAfterProcessAssets c p).2)).1 = Normal text
             ∧ emitted (env (state (handleAfterProcessAssets c p).2))
                 = (emitted (env (state p))
                    ++ [(getManifestPath c
                           (if inDevServer p
                            then path_basename (MoreOptions.output (moreOptions p))
                            else path_relative (compilation_outputPath c)
                                   (outputPath (config (state p)))),
                         text)])%list)
    | Throw _ =>
        emitted (env (state (handleAfterProcessAssets c p).2))
          = emitted (env (state p))
    end.
Proof.
  unfold handleAfterProcessAssets. rewrite runP_bind, processAssetsByChunkName_run.
  set (p1 := with_state _ p).
  assert (steady p p1) as H1 by (by repeat split).
  rewrite runP_bind.
  pose proof (steady_forOfP
    (λ asset, sourceFilenames ← getsP (keysFor asset);
              forOfP sourceFilenames (setForAsset asset))
    (getAssets c)
    (λ asset q, steady_forOfP (setForAsset asset) (keysFor asset q)
                  (steady_setForAsset asset) q) p1) as H2.
  destruct (forOfP (getAssets c) _ p1) as [[[]|e] p2]; simpl in H2.
  2: { pose proof (steady_trans _ _ _ H1 H2) as (?&?&?&?&?&?&?&?&?&?). by simpl. }
  pose proof (steady_trans _ _ _ H1 H2) as H12. clear H1 H2 p1.
  rewrite runP_gets, runP_bind.
  assert (steady p2
    ((if MoreOptions.entrypoints (moreOptions p2)
      then entrypoints ← getsP (getEntrypointFilesGroupedByExtension
                                  (compilation_entrypoints c));
           match MoreOptions.entrypointsKey (moreOptions p2) with
           | Some key => onState (setRaw key (VObj entrypoints))
           | None => forOfP (map_to_list entrypoints)
                       (λ '(key, files), onState (setRaw key files))
           end
      else mret tt) p2).2) as H3.
  { destruct (MoreOptions.entrypoints (moreOptions p2)); [|apply steady_refl].
    rewrite runP_gets.
    destruct (MoreOptions.entrypointsKey (moreOptions p2)); [apply steady_setRaw|].
    apply steady_forOfP. intros [key files] q. apply steady_setRaw. }
  match type of H3 with
  | steady _ (?r).2 => destruct r as [[[]|e] p3]
  end; simpl in H3.
  2: { pose proof (steady_trans _ _ _ H12 H3) as (?&?&?&?&?&?&?&?&?&?). by simpl. }
  pose proof (steady_trans _ _ _ H12 H3)
    as (Hmore&_&Hcounter&Hdev&_&Hconfig&Hlocks&_&Hwritten&Hemitted).
  clear H12 H3 p2.
  rewrite runP_modify, runP_gets. simpl. rewrite Hcounter.
  destruct (compilationCounter p - 1 =? 0)%Z eqn:Hlast.
  - apply Z.eqb_eq in Hlast.
    unfold emitManifest. rewrite runP_gets, runP_onState. simpl.
    unfold inDevServer. simpl. rewrite Hmore, Hdev, Hconfig.
    destruct (emitAssetsManifest_effects url_resolve varType JSON_stringify
                (getManifestPath c
                   (if devServer p
                    then path_basename (MoreOptions.output (moreOptions p))
                    else path_relative (compilation_outputPath c)
                           (outputPath (config (state p)))))
                (state p3)) as (_ & Hw & _ & Houtcome).
    split; [by rewrite Hw|]. split; [lia|].
    destruct (emitAssetsManifest _ _ _ _ (state p3)) as [[[]|e] s4]; simpl in *.
    + destruct Houtcome as [(text & Htext & Hemit) Hlock].
      split; [lia|]. split; [by rewrite Hlock|]. intros _.
      exists text. split; [done|]. by rewrite Hemit, Hemitted.
    + by rewrite Houtcome.
  - apply Z.eqb_neq in Hlast. simpl.
    split; [done|]. split; [done|]. split; [done|]. split; [done|]. lia.
Qed.

(** X19.  [handleAfterProcessAssets] writes nothing to the disk, leaves the
    locks as they were when it returns, and emits the manifest only when
    it ends the last compilation under way (the counter stood at 1).  On
    its normal return the counter is one lower; if it stood at 1, the
    serialization of the manifest as it stands has been emitted under the
    path that [emitAssetsManifest] computes, after everything emitted
    before.  When it throws nothing has been emitted. *)
Theorem handleAfterProcessAssets_emits (c : Compilation) (p : Plugin) :
  written (env (state (handleAfterProcessAssets c p).2)) = written (env (state p))
  ∧ (compilationCounter p ≠ 1%Z →
     emitted (env (state (handleAfterProcessAssets c p).2))
       = emitted (env (state p)))
  ∧ match (handleAfterProcessAssets c p).1 with
    | Normal _ =>
        compilationCounter (handleAfterProcessAssets c p).2
          = (compilationCounter p - 1)%Z
        ∧ locks (env (state (handleAfterProcessAssets c p).2))
            = locks (env (state p))
        ∧ (compilationCounter p = 1%Z →
           ∃ text,
             (toString (state (handleAfterProcessAssets c p).2)).1 = Normal text
             ∧ emitted (env (state (handleAfterProcessAssets c p).2))
                 = (emitted (env (state p))
                    ++ [(getManifestPath c
                           (if inDevServer p
                            then path_basename (MoreOptions.output (moreOptions p))
                            else path_relative (compilation_outputPath c)
                                   (outputPath (config (state p)))),
                         text)])%list)
    | Throw _ =>
        emitted (env (state (handleAfterProcessAssets c p).2))
          = emitted (env (state p))
    end.
Proof. exact (handleAfterProcessAssets_effects c p). Qed.

(** ** Entry points *)

Lemma groupFilesByExtension_spec p (files : list string) filenames : ∀ grouped,
  (∀ file, file ∈ filenames → file ∈ files ∧ isHMR file p = false) →
  (∀ ext x, grouped !! ext = Some x →
     (∃ xs, x = VArr xs)
     ∧ ∃ file, file ∈ files ∧ isHMR file p = false
               ∧ ext = toLowerCase (stripLeadingDots (getExtension file p))) →
  ∀ ext x, foldl (groupFilesByExtension p) grouped filenames !! ext = Some x →
    (∃ xs, x = VArr xs)
    ∧ ∃ file, file ∈ files ∧ isHMR file p = false
              ∧ ext = toLowerCase (stripLeadingDots (getExtension file p)).
Proof.
  induction filenames as [|f filenames IH]; intros grouped Hfiles Hgrouped; [done|].
  simpl. apply IH; [intros file Hfile; apply Hfiles; by right|].
  intros ext x. unfold groupFilesByExtension at 1.
  destruct (decide (ext = toLowerCase (stripLeadingDots (getExtension f p))))
    as [->|Hne].
  - rewrite lookup_insert_eq. intros [= <-]. split; [by eexists|].
    exists f. destruct (Hfiles f) as [Hin Hcold]; [by left|done].
  - rewrite lookup_insert_ne by done. apply Hgrouped.
Qed.

Lemma getEntrypointFilesGroupedByExtension_spec p
    (entrypoints : list (string * list string)) : ∀ grouped : gmap string value,
  let result :=
    foldl (λ (grouped : gmap string value) '(name, files),
             <[name := VObj (foldl (groupFilesByExtension p) ∅
                               (List.filter (λ f, negb (isHMR f p)) files))]> grouped)
          grouped entrypoints in
  (∀ name, is_Some (result !! name)
           ↔ is_Some (grouped !! name) ∨ name ∈ entrypoints.*1)
  ∧ (∀ name v, result !! name = Some v →
       grouped !! name = Some v
       ∨ ∃ files,
           (name, files) ∈ entrypoints
           ∧ v = VObj (foldl (groupFilesByExtension p) ∅
                         (List.filter (λ f, negb (isHMR f p)) files))).
Proof.
  induction entrypoints as [|[name files] entrypoints IH]; intros grouped; simpl.
  - split; [|by left]. intros name. split; [by left|].
    by intros [?|?%elem_of_nil].
  - destruct (IH (<[name := VObj (foldl (groupFilesByExtension p) ∅
                              (List.filter (λ f, negb (isHMR f p)) files))]> grouped))
      as [Hdom Hfrom].
    split.
    + intros key. rewrite Hdom, lookup_insert_is_Some, elem_of_cons.
      destruct (decide (name = key)) as [->|Hne]; [by split; [right; left|left; left]|].
      split; [intros [[?|[? ?]]|?]; auto; done|].
      intros [?|[?|?]]; [left; right; done| done |by right].
    + intros key v [Hold|(fs & Hin & ->)]%Hfrom.
      * destruct (decide (name = key)) as [->|Hne].
        -- rewrite lookup_insert_eq in Hold. injection Hold as <-.
           right. exists files. split; [by left|done].
        -- rewrite lookup_insert_ne in Hold by done. by left.
      * right. exists fs. split; [by right|done].
Qed.

(** X20.  [getEntrypointFilesGroupedByExtension] answers one entry for
    every entry point and for nothing else.  Each entry is an object of
    arrays, and every key of it is the extension of a file of that entry
    point that is no hot module replacement file, without leading dots and
    in lower case. *)
Theorem entrypoints_grouped (entrypoints : list (string * list string)) (p : Plugin) :
  (∀ name, is_Some (getEntrypointFilesGroupedByExtension entrypoints p !! name)
           ↔ name ∈ entrypoints.*1)
  ∧ (∀ name v,
       getEntrypointFilesGroupedByExtension entrypoints p !! name = Some v →
       ∃ files grouped,
         (name, files) ∈ entrypoints
         ∧ v = VObj grouped
         ∧ ∀ ext x, grouped !! ext = Some x →
             (∃ xs, x = VArr xs)
             ∧ ∃ file, file ∈ files ∧ isHMR file p = false
                       ∧ ext = toLowerCase (stripLeadingDots (getExtension file p))).
Proof.
  destruct (getEntrypointFilesGroupedByExtension_spec p entrypoints ∅)
    as [Hdom Hfrom].
  split.
  - intros name. unfold getEntrypointFilesGroupedByExtension. rewrite Hdom.
    rewrite lookup_empty. split; [by intros [[? ?]|?]|by right].
  - intros name v [Hold|(files & Hin & ->)]%Hfrom; [by rewrite lookup_empty in Hold|].
    exists files. eexists. split; [done|]. split; [done|].
    apply groupFilesByExtension_spec; [|by intros ext x; rewrite lookup_empty].
    intros file [Hfile Hcold]%list_elem_of_In%List.filter_In.
    split; [by apply list_elem_of_In|by apply negb_true_iff].
Qed.

(** X21.  The body of the loop of [handleAfterProcessAssets] resets
    [currentAsset] to [null] only when [set] returns: when [set] throws (a
    customize stage or the public path function), the error goes on,
    [currentAsset] is left at the asset, and the entries and the counter
    are as they were. *)
Theorem setForAsset_outcome (asset : Asset) (key : string) (p : Plugin) :
  match (setForAsset asset key p).1 with
  | Normal _ => currentAsset (state (setForAsset asset key p).2) = None
  | Throw _ =>
      currentAsset (state (setForAsset asset key p).2) = Some asset
      ∧ assets (state (setForAsset asset key p).2) = assets (state p)
      ∧ compilationCounter (setForAsset asset key p).2 = compilationCounter p
  end.
Proof.
  unfold setForAsset. rewrite runP_bind, runP_onState. simpl.
  rewrite runP_bind, runP_onState. simpl.
  destruct (set_cases url_resolve varType key (VStr (asset_name asset))
              (with_currentAsset (Some asset) (state p)))
    as [[e ->]|[->|[(k & w & ->)|(k & w & m & ->)]]]; by simpl.
Qed.

(** ** A compilation from its start to its assets; integrity *)

(** X22.  [handleCompilation] followed by [handleAfterProcessAssets] is
    [handleAfterProcessAssets] with the counter one higher.  When the two
    return normally the counter is where it stood before; the manifest has
    been emitted, once, if it stood at zero (no other compilation was
    under way), and nothing has been emitted otherwise.  When they throw
    nothing has been emitted. *)
Theorem compilation_emits_when_last (c : Compilation) (p : Plugin) :
  (handleCompilation ;; handleAfterProcessAssets c) p = handleAfterProcessAssets c
      (with_compilationCounter (compilationCounter p + 1) p)
  ∧ match ((handleCompilation ;; handleAfterProcessAssets c) p).1 with
    | Normal _ =>
        compilationCounter ((handleCompilation ;; handleAfterProcessAssets c) p).2
          = compilationCounter p
        ∧ if (compilationCounter p =? 0)%Z then
            ∃ output text,
              emitted (env (state ((handleCompilation ;;
                                    handleAfterProcessAssets c) p).2))
                = (emitted (env (state p)) ++ [(output, text)])%list
          else
            emitted (env (state ((handleCompilation ;;
                                  handleAfterProcessAssets c) p).2))
              = emitted (env (state p))
    | Throw _ =>
        emitted (env (state ((handleCompilation ;; handleAfterProcessAssets c) p).2))
          = emitted (env (state p))
    end.
Proof.
  split; [done|].
  unfold handleCompilation. rewrite runP_modify.
  destruct (handleAfterProcessAssets_effects c
              (with_compilationCounter (compilationCounter p + 1) p))
    as (_ & Hquiet & Houtcome).
  destruct (handleAfterProcessAssets c _) as [[[]|e] p1]; simpl in *; [|done].
  destruct Houtcome as (Hdown & _ & Hemit). split; [lia|].
  destruct (compilationCounter p =? 0)%Z eqn:Hlast.
  - apply Z.eqb_eq in Hlast. destruct Hemit as (text & _ & Hemit); [lia|].
    by eexists _, text.
  - apply Z.eqb_neq in Hlast. apply Hquiet. lia.
Qed.



End InstanceFacts.

(** * Files emitted by loaders *)

Section Loader.

Variable path_extname : string → string.
Variable path_basename : string → string.
Variable path_dirname : string → string.
Variable path_join : string → string → string.
Variable path_relative : string → string → string.

Local Abbreviation getExtension := (getExtension path_extname).
Local Abbreviation sourceFilenameFor :=
  (sourceFilenameFor path_basename path_dirname path_join path_relative).
Local Abbreviation emitFile :=
  (emitFile path_extname path_basename path_dirname path_join path_relative).

(** X25.  The [emitFile] that [handleNormalModuleLoader] installs never
    throws and never touches the manifest: of the instance it changes the
    asset-name index at most.  The info it passes on agrees with the info
    it was given on every property other than [sourceFilename] and
    [userRequest].  When the extensions of the request and of the name
    differ it passes the info on as it is and leaves the instance alone;
    when they agree the info names the source filename and the request,
    and the index maps the source filename to the name, all other names
    being as before. *)
Theorem emitFile_outcome (context userRequest name : string)
    (assetInfo : gmap string value) (p : Plugin) :
  ∃ info,
    (emitFile context userRequest name assetInfo p).1 = Normal info
    ∧ (emitFile context userRequest name assetInfo p).2
        = with_state
            (with_assetNames
               (assetNames (state (emitFile context userRequest name assetInfo p).2))
               (state p)) p
    ∧ (∀ key, key ≠ "sourceFilename" → key ≠ "userRequest" →
         info !! key = assetInfo !! key)
    ∧ (getExtension userRequest p ≠ getExtension name p →
       info = assetInfo
       ∧ (emitFile context userRequest name assetInfo p).2 = p)
    ∧ (getExtension userRequest p = getExtension name p →
       info !! "sourceFilename"
         = Some (VStr (sourceFilenameFor context userRequest name p))
       ∧ info !! "userRequest" = Some (VStr userRequest)
       ∧ assetNames (state (emitFile context userRequest name assetInfo p).2)
           = <[sourceFilenameFor context userRequest name p := name]>
               (assetNames (state p))).
Proof.
  unfold emitFile. rewrite runP_gets.
  destruct (String.eqb (getExtension userRequest p) (getExtension name p)) eqn:Hsame.
  - apply String.eqb_eq in Hsame.
    rewrite runP_gets. unfold recordName. rewrite runP_modify. simpl.
    eexists. split; [done|]. split; [done|]. split; [|split; [done|]].
    + intros key Hsource Hrequest. by rewrite !lookup_insert_ne.
    + intros _. rewrite lookup_insert_ne by done. by rewrite !lookup_insert_eq.
  - apply String.eqb_neq in Hsame. simpl.
    exists assetInfo. split; [done|]. split; [by destruct p as [[] ? ? ? ? ?]|].
    split; [done|]. split; [done|]. done.
Qed.

End Loader.

(** * Every asset reaches the manifest *)

Lemma gathering_refl p : gathering p p.
Proof. split; [apply steady_refl|done]. Qed.

Lemma gathering_trans p1 p2 p3 : gathering p1 p2 → gathering p2 p3 → gathering p1 p3.
Proof.
  intros (?&?&?&?) (?&?&?&?).
  split; [by eapply steady_trans|]. split; [congruence|]. split; [congruence|].
  by etrans.
Qed.

Section Coverage.

Variable url_resolve : string → string → string.
Variable varType : value → string.
Variable JSON_stringify : value → option string.
Variable maybeArrayWrap : value → list string.
Variable findMapKeysByValue : gmap string string → string → list string.
Variable path_extname : string → string.
Variable path_basename : string → string.
Variable path_relative : string → string → string.
Variable toLowerCase : string → string.

Local Abbreviation getPublicPath := (getPublicPath url_resolve).
Local Abbreviation setForAsset := (setForAsset url_resolve varType).
Local Abbreviation keysFor := (keysFor findMapKeysByValue path_basename).
Local Abbreviation processAssetsByChunkName :=
  (processAssetsByChunkName maybeArrayWrap path_extname).
Local Abbreviation getEntrypointFilesGroupedByExtension :=
  (getEntrypointFilesGroupedByExtension findMapKeysByValue path_extname toLowerCase).
Local Abbreviation emitManifest :=
  (emitManifest url_resolve varType JSON_stringify path_basename path_relative).
Local Abbreviation handleAfterProcessAssets :=
  (handleAfterProcessAssets url_resolve varType JSON_stringify maybeArrayWrap
     findMapKeysByValue path_extname path_basename path_relative toLowerCase).

(** With no customize stage, outside a merge, [set] writes under the
    normalized key or throws what the public path function threw. *)
Lemma set_uncustomized key v s :
  customize (config s) = [] →
  isMerging s = false →
  (∃ w, set url_resolve varType key v s = setRaw (fixKey key) w s)
  ∨ ∃ e, set url_resolve varType key v s = (Throw e, s).
Proof.
  intros Htaps Hflag.
  assert (isMerging s && negb (isCustomize (Options.merge (options (config s))))
          = false) as Hraw by (by rewrite Hflag).
  pose proof (getPublicPath_state url_resolve v s) as Hs.
  destruct (getPublicPath v s) as [[publicPath|e] s1] eqn:Hpp; simpl in Hs; subst s1.
  - left.
    rewrite (set_run_customized url_resolve varType key v s publicPath
               (VObj {[ "key" := VStr (fixKey key); "value" := publicPath ]}));
      [|done|by rewrite Hpp|].
    2: { unfold callCustomize. rewrite !run_gets, Htaps. reflexivity. }
    cbn zeta.
    rewrite (destructure_present _ "key" (VStr (fixKey key))); [|done|done].
    by eexists.
  - right. exists e. unfold set. by rewrite !run_gets, Hraw, run_bind, Hpp.
Qed.

Lemma setForAsset_stores asset key p :
  customize (config (state p)) = [] →
  isMerging (state p) = false →
  gathering p (setForAsset asset key p).2
  ∧ ((setForAsset asset key p).1 = Normal tt →
     fixKey key ∈ dom (assets (state (setForAsset asset key p).2))).
Proof.
  intros Htaps Hflag. unfold setForAsset.
  rewrite runP_bind, runP_onState. simpl. rewrite runP_bind, runP_onState. simpl.
  destruct (set_uncustomized key (VStr (asset_name asset))
              (with_currentAsset (Some asset) (state p)) Htaps Hflag)
    as [[w ->]|[e ->]]; simpl.
  - unfold setRaw, modify, with_state, with_currentAsset, with_assets. simpl.
    split.
    + split; [by repeat split|]. split; [done|]. split; [done|].
      simpl. rewrite dom_insert. apply union_subseteq_r.
    + intros _. simpl. rewrite dom_insert.
      by apply elem_of_union_l, elem_of_singleton.
  - split; [|done]. split; [by repeat split|done].
Qed.

Lemma forOfP_setForAsset_stores asset keys : ∀ p,
  customize (config (state p)) = [] →
  isMerging (state p) = false →
  gathering p (forOfP keys (setForAsset asset) p).2
  ∧ ((forOfP keys (setForAsset asset) p).1 = Normal tt →
     ∀ key, key ∈ keys →
       fixKey key ∈ dom (assets (state (forOfP keys (setForAsset asset) p).2))).
Proof.
  induction keys as [|k keys IH]; intros p Htaps Hflag.
  - split; [apply gathering_refl|]. by intros _ key ?%elem_of_nil.
  - rewrite runP_forOf_cons.
    destruct (setForAsset_stores asset k p Htaps Hflag) as [Hstep Hstored].
    destruct (setForAsset asset k p) as [[[]|e] p1]; simpl in Hstep, Hstored;
      [|by split].
    pose proof Hstep as ((_&_&_&_&_&Hconfig&_)&_&Hflag1&_).
    destruct (IH p1) as [Hrest Hkeys]; [by rewrite Hconfig|by rewrite Hflag1|].
    split; [by eapply gathering_trans|].
    intros Hnormal key [->|Hin]%elem_of_cons; [|by apply Hkeys].
    destruct Hrest as (_&_&_&Hdom). by apply Hdom, Hstored.
Qed.

Lemma keysFor_gathering asset p q : gathering p q → keysFor asset q = keysFor asset p.
Proof.
  intros ((Hmore&_)&Hnames&_). unfold keysFor. by rewrite Hmore, Hnames.
Qed.

Lemma forOfP_assets_stores (outputs : list Asset) : ∀ p,
  customize (config (state p)) = [] →
  isMerging (state p) = false →
  let loop := forOfP outputs (λ asset,
                sourceFilenames ← getsP (keysFor asset);
                forOfP sourceFilenames (setForAsset asset)) in
  gathering p (loop p).2
  ∧ ((loop p).1 = Normal tt →
     ∀ asset key, asset ∈ outputs → key ∈ keysFor asset p →
       fixKey key ∈ dom (assets (state (loop p).2))).
Proof.
  induction outputs as [|a outputs IH]; intros p Htaps Hflag loop; subst loop.
  - split; [apply gathering_refl|]. by intros _ asset key ?%elem_of_nil.
  - rewrite runP_forOf_cons, runP_gets.
    destruct (forOfP_setForAsset_stores a (keysFor a p) p Htaps Hflag)
      as [Hstep Hstored].
    destruct (forOfP (keysFor a p) (setForAsset a) p) as [[[]|e] p1];
      simpl in Hstep, Hstored; [|by split].
    pose proof Hstep as ((_&_&_&_&_&Hconfig&_)&_&Hflag1&_).
    destruct (IH p1) as [Hrest Hkeys]; [by rewrite Hconfig|by rewrite Hflag1|].
    split; [by eapply gathering_trans|].
    intros Hnormal asset key [->|Hin]%elem_of_cons Hkey.
    + destruct Hrest as (_&_&_&Hdom). by apply Hdom, Hstored.
    + apply (Hkeys Hnormal asset key Hin).
      by rewrite (keysFor_gathering asset p p1).
Qed.

Lemma keysFor_nonempty asset p : keysFor asset p ≠ [].
Proof. unfold keysFor. by destruct (findMapKeysByValue _ _). Qed.

(** X24.  With no customize stage tapped and no merge under way, when
    [handleAfterProcessAssets] returns normally every asset of the
    compilation is in the manifest: the keys chosen for it (those the
    asset-name index lists for its name after [processAssetsByChunkName],
    or else its source filename or its own name) are one at least, and the
    manifest holds an entry under the normalized form of each. *)
Theorem handleAfterProcessAssets_covers (c : Compilation) (p : Plugin) (asset : Asset) :
  customize (config (state p)) = [] →
  isMerging (state p) = false →
  (handleAfterProcessAssets c p).1 = Normal tt →
  asset ∈ getAssets c →
  keysFor asset (processAssetsByChunkName (assetsByChunkName c) p).2 ≠ []
  ∧ ∀ key,
      key ∈ keysFor asset (processAssetsByChunkName (assetsByChunkName c) p).2 →
      is_Some (assets (state (handleAfterProcessAssets c p).2) !! fixKey key).
Proof.
  intros Htaps Hflag Hnormal Hasset. split; [apply keysFor_nonempty|].
  intros key Hkey. apply elem_of_dom. revert Hnormal Hkey.
  unfold handleAfterProcessAssets.
  rewrite runP_bind, (processAssetsByChunkName_run maybeArrayWrap path_extname).
  cbn [snd]. set (p1 := with_state _ p).
  rewrite runP_bind.
  destruct (forOfP_assets_stores (getAssets c) p1 Htaps Hflag) as [_ Hstored].
  cbn zeta in Hstored.
  destruct (forOfP (getAssets c) _ p1) as [[[]|e] p2]; simpl in Hstored; [|done].
  intros Hnormal Hkey.
  specialize (Hstored eq_refl asset key Hasset Hkey).
  revert Hnormal. rewrite runP_gets, runP_bind.
  assert (dom (assets (state p2))
    ⊆ dom (assets (state
        ((if MoreOptions.entrypoints (moreOptions p2)
          then entrypoints ← getsP (getEntrypointFilesGroupedByExtension
                                      (compilation_entrypoints c));
               match MoreOptions.entrypointsKey (moreOptions p2) with
               | Some key => onState (setRaw key (VObj entrypoints))
               | None => forOfP (map_to_list entrypoints)
                           (λ '(key, files), onState (setRaw key files))
               end
          else mret tt) p2).2))) as Hentry.
  { destruct (MoreOptions.entrypoints (moreOptions p2)); [|done].
    rewrite runP_gets.
    destruct (MoreOptions.entrypointsKey (moreOptions p2)).
    - unfold setRaw, modify, with_state, with_assets. simpl.
      rewrite dom_insert. apply union_subseteq_r.
    - generalize (map_to_list (getEntrypointFilesGroupedByExtension
                                 (compilation_entrypoints c) p2)).
      intros entries. generalize p2. clear.
      induction entries as [|[k files] entries IH]; intros q; [done|].
      rewrite runP_forOf_cons. simpl. etrans; [|apply IH].
      unfold with_state, with_assets. simpl. rewrite dom_insert.
      apply union_subseteq_r. }
  match type of Hentry with
  | _ ⊆ dom (assets (state (?r).2)) => destruct r as [[[]|e] p3]
  end; simpl in Hentry; [|done].
  rewrite runP_modify, runP_gets. simpl.
  destruct (compilationCounter p3 - 1 =? 0)%Z; [|intros _; by apply Hentry, Hstored].
  unfold emitManifest. rewrite runP_gets, runP_onState. simpl. intros _.
  match goal with
  | |- _ ∈ dom (assets (emitAssetsManifest _ _ _ ?output _).2) =>
      destruct (emitAssetsManifest_effects url_resolve varType JSON_stringify
                  output (state p3)) as [Hdom _]
  end.
  by apply Hdom, Hentry, Hstored.
Qed.

End Coverage.

(** * Instances of the properties above *)


Lemma set_then_read_witness :
  let manifest := newManifest defaultOptions ∅ ∅ in
  let after := assets (set joinPath typeName backslashKey (VStr "out.js") manifest).2 in
  (set joinPath typeName backslashKey (VStr "out.js") manifest).1 = Normal tt
  ∧ after = <[fixKey backslashKey := VStr "out.js"]> (assets manifest)
  ∧ has backslashKey after = true
  ∧ (truthy (VStr "out.js") = true →
       get (fixKey backslashKey) VNull after = VStr "out.js"
       ∧ (fixKey backslashKey = backslashKey ∨ assets manifest !! backslashKey = None →
          get backslashKey VNull after = VStr "out.js")).
Proof.
  apply (set_then_read joinPath typeName backslashKey (VStr "out.js") VNull
           (VStr "out.js") (newManifest defaultOptions ∅ ∅)); reflexivity.
Defined.


Lemma defaultFileExtRegex_double_witness :
  defaultFileExtRegex ("js/bundle.min" +:+ "." +:+ "js" +:+ "." +:+ "MAP")
    = Some ("." +:+ "js" +:+ "." +:+ "MAP").
Proof.
  apply (defaultFileExtRegex_double "js/bundle.min" "js" "MAP");
    [reflexivity | simpl; lia | left; reflexivity].
Defined.

Lemma handleAfterEmit_auto_plain_build_witness :
  handleAfterEmit noText secondPath oneChunk
    (newPlugin (newManifest defaultOptions ∅ ∅))
  = (Normal tt, newPlugin (newManifest defaultOptions ∅ ∅)).
Proof.
  apply (handleAfterEmit_auto_plain_build noText secondPath oneChunk
           (newPlugin (newManifest defaultOptions ∅ ∅))); reflexivity.
Defined.

Lemma getExtension_ignores_query_witness :
  getExtension samePath ("main.js" +:+ String "?"%char "v=1")
    (newPlugin (newManifest defaultOptions ∅ ∅))
  = getExtension samePath "main.js" (newPlugin (newManifest defaultOptions ∅ ∅)).
Proof.
  apply (getExtension_ignores_query samePath "main.js" "?"%char "v=1"
           (newPlugin (newManifest defaultOptions ∅ ∅))).
  - discriminate.
  - intros c Hc. simpl in Hc.
    repeat (apply elem_of_cons in Hc as [-> | Hc]; [split; discriminate|]).
    by apply elem_of_nil in Hc.
  - by left.
Defined.

Lemma getExtension_default_shape_witness :
  let p := newPlugin (newManifest defaultOptions ∅ ∅) in
  (getExtension samePath "main.js.map?v=1" p = ""
   ∨ ∃ base rest,
       beforeQueryOrHash "main.js.map?v=1"
         = base +:+ getExtension samePath "main.js.map?v=1" p
       ∧ getExtension samePath "main.js.map?v=1" p = String "."%char rest
       ∧ rest ≠ ""
       ∧ (countDots rest ≤ 1)%nat)
  ∧ (countDots (beforeQueryOrHash "main.js.map?v=1") = 0%nat →
     getExtension samePath "main.js.map?v=1" p = "").
Proof.
  apply (getExtension_default_shape samePath "main.js.map?v=1"
           (newPlugin (newManifest defaultOptions ∅ ∅))). reflexivity.
Defined.


Lemma handleAfterProcessAssets_covers_witness :
  let p := with_compilationCounter 1 (newPlugin (newManifest defaultOptions ∅ ∅)) in
  let asset := output_asset mainOutput in
  let indexed := (processAssetsByChunkName filesOf samePath
                    (assetsByChunkName oneChunk) p).2 in
  keysFor keysOf samePath asset indexed ≠ []
  ∧ ∀ key,
      key ∈ keysFor keysOf samePath asset indexed →
      is_Some (assets (state (handleAfterProcessAssets joinPath typeName noText
                                filesOf keysOf samePath samePath secondPath samePath
                                oneChunk p).2)
                 !! fixKey key).
Proof.
  apply (handleAfterProcessAssets_covers joinPath typeName noText filesOf keysOf
           samePath samePath secondPath samePath oneChunk
           (with_compilationCounter 1 (newPlugin (newManifest defaultOptions ∅ ∅)))
           (output_asset mainOutput)).
  - reflexivity.
  - reflexivity.
  - vm_compute. reflexivity.
  - constructor.
Defined.
